(** * The live-session hook [useLiveSession] (src/hooks/useLiveSession.ts)

    A shallow embedding of the hook: its React state and refs, the
    closure of a [connect] call, and the callbacks it registers
    ([onopen], [onmessage], [onclose], [onerror], the audio tap and the
    frame timer), each written as a program of a small state, log and
    exception monad.  An [async] function is cut at its [await]s: the
    part before the [await] and the continuation are separate programs,
    so that other callbacks can run in between. *)

From Stdlib Require Import List Sorted ZArith NArith QArith Qminmax Lia Bool.
From Stdlib Require Import String Ascii.
Import ListNotations.

Set Implicit Arguments.

(** ** JavaScript strings *)

Module Js.

(** A JavaScript string is a sequence of UTF-16 code units. *)
Definition code_unit := N.
Definition jsstring := list code_unit.

(** A string literal of the source (ASCII only). *)
Definition lit (s : String.string) : jsstring :=
  map N_of_ascii (list_ascii_of_string s).

Definition jsstring_dec (a b : jsstring) : {a = b} + {a <> b} :=
  list_eq_dec N.eq_dec a b.

(** [a === b] on strings. *)
Definition strict_eq (a b : jsstring) : bool :=
  if jsstring_dec a b then true else false.

(** Truthiness of a string: every string but the empty one. *)
Definition truthy (s : jsstring) : bool :=
  match s with [] => false | _ :: _ => true end.


(** WhiteSpace and LineTerminator code units of ECMAScript, the ones
    [String.prototype.trim] strips. *)
Definition is_white_space (c : code_unit) : bool :=
  existsb (N.eqb c)
    [9; 10; 11; 12; 13; 32; 160; 5760; 8232; 8233; 8239; 8287; 12288; 65279]%N
  || (8192 <=? c)%N && (c <=? 8202)%N.

Fixpoint trimStart (s : jsstring) : jsstring :=
  match s with
  | [] => []
  | c :: r => if is_white_space c then trimStart r else s
  end.

Definition trimEnd (s : jsstring) : jsstring := rev (trimStart (rev s)).

Definition trim (s : jsstring) : jsstring := trimEnd (trimStart s).

(** A string with a code unit that is not white space. *)
Definition has_ink (s : jsstring) : bool :=
  existsb (fun c => negb (is_white_space c)) s.

End Js.

Import Js.

(** ** Types of ../types and of the wire protocol *)

Inductive ConnectionState := DISCONNECTED | CONNECTING | CONNECTED | ERROR.

(** [ClarityUpdate] of ../types; [score] is a JavaScript number, the tool
    declaration asks for an integer. *)
Record ClarityUpdate := {
  score : Z;
  reasoning : jsstring;
  language : option jsstring
}.

Inductive Direction := user | model.

(** The parts of [LiveServerMessage] the hook reads; every property is
    optional, as in the library's declarations. *)
Record FunctionCall := {
  fc_id : option jsstring;
  fc_name : option jsstring;
  fc_args : option ClarityUpdate   (* [fc.args as unknown as ClarityUpdate] *)
}.

Record LiveServerToolCall := { functionCalls : option (list FunctionCall) }.

Record Blob := { blob_data : option jsstring; blob_mimeType : option jsstring }.

Record Part := { inlineData : option Blob; part_text : option jsstring }.

Record Content := { parts : option (list Part) }.

Record Transcription := { tr_text : option jsstring }.

Record LiveServerContent := {
  modelTurn : option Content;
  turnComplete : option bool;
  inputTranscription : option Transcription;
  outputTranscription : option Transcription
}.

Record LiveServerMessage := {
  toolCall : option LiveServerToolCall;
  serverContent : option LiveServerContent
}.

(** ** Browser objects *)

(** Objects are known by their identity. *)
Definition AudioContext := nat.
Definition AudioBufferSourceNode := nat.
Definition ScriptProcessorNode := nat.
Definition SessionPromise := nat.

(** [setInterval] returns a positive integer, so that the handle is truthy. *)
Definition IntervalId := positive.

Inductive TrackKind := audioTrack | videoTrack.
Record MediaStreamTrack := { track_kind : TrackKind; track_id : nat }.

(** A [MediaStream] is read through [getTracks()] only. *)
Definition MediaStream := list MediaStreamTrack.

(** An [AudioBuffer]: a number of sample frames at a sample rate. *)
Record AudioBuffer := { buf_length : N; buf_sampleRate : positive }.

(** [buffer.duration], in seconds.  Times are rational numbers. *)
Definition duration (b : AudioBuffer) : Q :=
  Z.of_N (buf_length b) # buf_sampleRate b.

(** What goes out through the session once [sessionPromise] is fulfilled. *)
Inductive Outbound :=
| sendRealtimeInput_media (pcmBlob : jsstring)
| sendRealtimeInput_image (base64Data : jsstring)
| sendRealtimeInput_text (text : jsstring)
| sendToolResponse (id name : option jsstring).   (* response: { result: "ok" } *)

(** What the hook does to the world around it, in program order. *)
Inductive Effect :=
| console_log
| console_warn
| console_error
| setConnectionState (c : ConnectionState)
| track_stop (t : MediaStreamTrack)
| clearInterval (i : IntervalId)
| setInterval (i : IntervalId)
| new_AudioContext (c : AudioContext) (sampleRate : positive)
| context_close (c : AudioContext)
| getUserMedia (video : bool)
| video_play
| live_connect (p : SessionPromise)
| createScriptProcessor (c : AudioContext) (n : ScriptProcessorNode)
| decodeAudioData (data : jsstring) (c : AudioContext)
| createBufferSource (c : AudioContext) (n : AudioBufferSourceNode)
| source_start (n : AudioBufferSourceNode) (c : AudioContext)
               (b : AudioBuffer) (when : Q)
| source_stop (n : AudioBufferSourceNode)
| canvas_drawImage
| onClarityUpdate (u : option ClarityUpdate)
| onTranscription (text : jsstring) (type : Direction)
| session_send (o : Outbound).

(** A suspended [onmessage]: the frame and the context captured before
    [await decodeAudioData(audioData, ctx)]. *)
Record DecodeTask := { task_msg : LiveServerMessage; task_ctx : AudioContext }.

(** ** The state of the hook *)

Record World := {
  (* React state *)
  connectionState : ConnectionState;
  isAudioOnly : bool;
  (* refs *)
  isAudioOnlyRef : bool;
  videoRef : bool;                 (* [videoRef.current] is an element *)
  canvasRef : bool;                (* [canvasRef.current] is an element *)
  inputAudioContextRef : option AudioContext;
  outputAudioContextRef : option AudioContext;
  mediaStreamRef : option MediaStream;
  audioProcessorRef : option ScriptProcessorNode;
  sessionRef : option SessionPromise;
  videoIntervalRef : option IntervalId;
  nextStartTimeRef : Q;             (* seconds *)
  sourceNodesRef : list AudioBufferSourceNode;   (* a Set, in insertion order *)
  (* closure of the latest connect() call *)
  connect_isAudioOnly : bool;      (* [isAudioOnly] as connect() captured it *)
  currentInputTranscription : jsstring;
  currentOutputTranscription : jsstring;
  (* the environment *)
  microtasks : list Outbound;      (* callbacks given to sessionPromise.then *)
  pendingDecodes : list DecodeTask;
  stop_throws : AudioBufferSourceNode -> bool;   (* does source.stop() raise *)
  fresh : nat                      (* next object identity *)
}.

Definition init_world (throws : AudioBufferSourceNode -> bool) : World := {|
  connectionState := DISCONNECTED;
  isAudioOnly := false;
  isAudioOnlyRef := false;
  videoRef := true;
  canvasRef := true;
  inputAudioContextRef := None;
  outputAudioContextRef := None;
  mediaStreamRef := None;
  audioProcessorRef := None;
  sessionRef := None;
  videoIntervalRef := None;
  nextStartTimeRef := 0;
  sourceNodesRef := [];
  connect_isAudioOnly := false;
  currentInputTranscription := [];
  currentOutputTranscription := [];
  microtasks := [];
  pendingDecodes := [];
  stop_throws := throws;
  fresh := 0
|}.

(** Field updates: the record with one field replaced. *)
Definition set_connectionState (v : ConnectionState) (w : World) : World :=
  match w with
  | Build_World cs ao aor vr cr ic oc ms ap sr vi ns sn cao cit cot mt pd st fr =>
    Build_World v ao aor vr cr ic oc ms ap sr vi ns sn cao cit cot mt pd st fr
  end.

Definition set_isAudioOnly (v : bool) (w : World) : World :=
  match w with
  | Build_World cs ao aor vr cr ic oc ms ap sr vi ns sn cao cit cot mt pd st fr =>
    Build_World cs v aor vr cr ic oc ms ap sr vi ns sn cao cit cot mt pd st fr
  end.

Definition set_isAudioOnlyRef (v : bool) (w : World) : World :=
  match w with
  | Build_World cs ao aor vr cr ic oc ms ap sr vi ns sn cao cit cot mt pd st fr =>
    Build_World cs ao v vr cr ic oc ms ap sr vi ns sn cao cit cot mt pd st fr
  end.

Definition set_inputAudioContextRef (v : option AudioContext) (w : World) : World :=
  match w with
  | Build_World cs ao aor vr cr ic oc ms ap sr vi ns sn cao cit cot mt pd st fr =>
    Build_World cs ao aor vr cr v oc ms ap sr vi ns sn cao cit cot mt pd st fr
  end.

Definition set_outputAudioContextRef (v : option AudioContext) (w : World) : World :=
  match w with
  | Build_World cs ao aor vr cr ic oc ms ap sr vi ns sn cao cit cot mt pd st fr =>
    Build_World cs ao aor vr cr ic v ms ap sr vi ns sn cao cit cot mt pd st fr
  end.

Definition set_mediaStreamRef (v : option MediaStream) (w : World) : World :=
  match w with
  | Build_World cs ao aor vr cr ic oc ms ap sr vi ns sn cao cit cot mt pd st fr =>
    Build_World cs ao aor vr cr ic oc v ap sr vi ns sn cao cit cot mt pd st fr
  end.

Definition set_audioProcessorRef (v : option ScriptProcessorNode) (w : World) : World :=
  match w with
  | Build_World cs ao aor vr cr ic oc ms ap sr vi ns sn cao cit cot mt pd st fr =>
    Build_World cs ao aor vr cr ic oc ms v sr vi ns sn cao cit cot mt pd st fr
  end.

Definition set_sessionRef (v : option SessionPromise) (w : World) : World :=
  match w with
  | Build_World cs ao aor vr cr ic oc ms ap sr vi ns sn cao cit cot mt pd st fr =>
    Build_World cs ao aor vr cr ic oc ms ap v vi ns sn cao cit cot mt pd st fr
  end.

Definition set_videoIntervalRef (v : option IntervalId) (w : World) : World :=
  match w with
  | Build_World cs ao aor vr cr ic oc ms ap sr vi ns sn cao cit cot mt pd st fr =>
    Build_World cs ao aor vr cr ic oc ms ap sr v ns sn cao cit cot mt pd st fr
  end.

Definition set_nextStartTimeRef (v : Q) (w : World) : World :=
  match w with
  | Build_World cs ao aor vr cr ic oc ms ap sr vi ns sn cao cit cot mt pd st fr =>
    Build_World cs ao aor vr cr ic oc ms ap sr vi v sn cao cit cot mt pd st fr
  end.

Definition set_sourceNodesRef (v : list AudioBufferSourceNode) (w : World) : World :=
  match w with
  | Build_World cs ao aor vr cr ic oc ms ap sr vi ns sn cao cit cot mt pd st fr =>
    Build_World cs ao aor vr cr ic oc ms ap sr vi ns v cao cit cot mt pd st fr
  end.

Definition set_connect_isAudioOnly (v : bool) (w : World) : World :=
  match w with
  | Build_World cs ao aor vr cr ic oc ms ap sr vi ns sn cao cit cot mt pd st fr =>
    Build_World cs ao aor vr cr ic oc ms ap sr vi ns sn v cit cot mt pd st fr
  end.

Definition set_currentInputTranscription (v : jsstring) (w : World) : World :=
  match w with
  | Build_World cs ao aor vr cr ic oc ms ap sr vi ns sn cao cit cot mt pd st fr =>
    Build_World cs ao aor vr cr ic oc ms ap sr vi ns sn cao v cot mt pd st fr
  end.

Definition set_currentOutputTranscription (v : jsstring) (w : World) : World :=
  match w with
  | Build_World cs ao aor vr cr ic oc ms ap sr vi ns sn cao cit cot mt pd st fr =>
    Build_World cs ao aor vr cr ic oc ms ap sr vi ns sn cao cit v mt pd st fr
  end.

Definition set_microtasks (v : list Outbound) (w : World) : World :=
  match w with
  | Build_World cs ao aor vr cr ic oc ms ap sr vi ns sn cao cit cot mt pd st fr =>
    Build_World cs ao aor vr cr ic oc ms ap sr vi ns sn cao cit cot v pd st fr
  end.

Definition set_pendingDecodes (v : list DecodeTask) (w : World) : World :=
  match w with
  | Build_World cs ao aor vr cr ic oc ms ap sr vi ns sn cao cit cot mt pd st fr =>
    Build_World cs ao aor vr cr ic oc ms ap sr vi ns sn cao cit cot mt v st fr
  end.

Definition set_fresh (v : nat) (w : World) : World :=
  match w with
  | Build_World cs ao aor vr cr ic oc ms ap sr vi ns sn cao cit cot mt pd st fr =>
    Build_World cs ao aor vr cr ic oc ms ap sr vi ns sn cao cit cot mt pd st v
  end.

(** ** The monad of the callbacks

    A program takes the world and gives a result ([None] when it threw),
    the world it leaves and the effects it had, in order. *)

Record Outcome (A : Type) := {
  result : option A;
  world : World;
  log : list Effect
}.

Definition M (A : Type) := World -> Outcome A.

Definition ret {A} (a : A) : M A :=
  fun w => {| result := Some a; world := w; log := [] |}.

Definition bind {A B} (m : M A) (k : A -> M B) : M B :=
  fun w =>
    match m w with
    | {| result := Some a; world := w1; log := l1 |} =>
        match k a w1 with
        | {| result := b; world := w2; log := l2 |} =>
            {| result := b; world := w2; log := l1 ++ l2 |}
        end
    | {| result := None; world := w1; log := l1 |} =>
        {| result := None; world := w1; log := l1 |}
    end.

Notation "x <- m ;; k" := (bind m (fun x => k))
  (at level 61, m at next level, right associativity).
Notation "m ;; k" := (bind m (fun _ => k))
  (at level 61, right associativity).

Definition emit (e : Effect) : M unit :=
  fun w => {| result := Some tt; world := w; log := [e] |}.

Definition gets {A} (f : World -> A) : M A :=
  fun w => {| result := Some (f w); world := w; log := [] |}.

Definition modify (f : World -> World) : M unit :=
  fun w => {| result := Some tt; world := f w; log := [] |}.

Definition throw {A} : M A :=
  fun w => {| result := None; world := w; log := [] |}.

(** [try { m } catch (e) {}] *)
Definition try_swallow (m : M unit) : M unit :=
  fun w =>
    match m w with
    | {| result := _; world := w1; log := l1 |} =>
        {| result := Some tt; world := w1; log := l1 |}
    end.

(** [if (c) { m }] *)
Definition when (c : bool) (m : M unit) : M unit :=
  if c then m else ret tt.

(** [l.forEach(f)] and [for (const x of l) f(x)] *)
Fixpoint forEach {A} (f : A -> M unit) (l : list A) : M unit :=
  match l with
  | [] => ret tt
  | x :: r => f x ;; forEach f r
  end.

(** A new object, with an identity of its own. *)
Definition new_object : M nat :=
  fun w => {| result := Some (fresh w);
              world := set_fresh (S (fresh w)) w; log := [] |}.

(** [sessionPromise.then(session => session.m(...))]: the promise is
    fulfilled once the channel is open, and the callback runs once, at
    the next microtask checkpoint, after the callbacks given before it. *)
Definition then_session (o : Outbound) : M unit :=
  modify (fun w => set_microtasks (microtasks w ++ [o]) w).

Definition run_microtasks : M unit :=
  fun w => {| result := Some tt; world := set_microtasks [] w;
              log := map session_send (microtasks w) |}.

(** [source.stop()]: the call, which raises when the environment says so. *)
Definition stop (n : AudioBufferSourceNode) : M unit :=
  fun w => {| result := if stop_throws w n then None else Some tt;
              world := w; log := [source_stop n] |}.

(** ** The hook *)

(** [setConnectionState(c)] *)
Definition setState (c : ConnectionState) : M unit :=
  emit (setConnectionState c) ;; modify (set_connectionState c).

(** [setIsAudioOnly(b)], with the effect that copies the state to the ref
    after the render. *)
Definition setIsAudioOnly (b : bool) : M unit :=
  modify (set_isAudioOnly b) ;; modify (set_isAudioOnlyRef b).

(** [disconnect], lines 61-93, run to its end ([await]s marked). *)
Definition disconnect : M unit :=
  (* Stop media stream *)
  ms <- gets mediaStreamRef ;;
  match ms with
  | Some stream =>
      forEach (fun track => emit (track_stop track)) stream ;;
      modify (set_mediaStreamRef None)
  | None => ret tt
  end ;;
  (* Stop video loop *)
  vi <- gets videoIntervalRef ;;
  match vi with
  | Some i => emit (clearInterval i) ;; modify (set_videoIntervalRef None)
  | None => ret tt
  end ;;
  (* Close Audio Contexts *)
  ic <- gets inputAudioContextRef ;;
  match ic with
  | Some c =>
      emit (context_close c) ;;          (* await *)
      modify (set_inputAudioContextRef None)
  | None => ret tt
  end ;;
  oc <- gets outputAudioContextRef ;;
  match oc with
  | Some c =>
      (* Stop all playing sources *)
      nodes <- gets sourceNodesRef ;;
      forEach (fun source => try_swallow (stop source)) nodes ;;
      modify (set_sourceNodesRef []) ;;
      emit (context_close c) ;;          (* await *)
      modify (set_outputAudioContextRef None)
  | None => ret tt
  end ;;
  modify (set_sessionRef None) ;;
  setState DISCONNECTED.

(** [connect], lines 95-123: up to [await getUserMedia(constraints)].
    The result tells whether the call is suspended there. *)
Definition connect (apiKey : jsstring) : M bool :=
  if negb (truthy apiKey) then
    emit console_error ;; ret false
  else
    setState CONNECTING ;;
    audioOnly <- gets isAudioOnly ;;
    modify (set_connect_isAudioOnly audioOnly) ;;
    (* Initialize Audio Contexts *)
    ic <- new_object ;;
    emit (new_AudioContext ic 16000) ;;
    modify (set_inputAudioContextRef (Some ic)) ;;
    oc <- new_object ;;
    emit (new_AudioContext oc 24000) ;;
    modify (set_outputAudioContextRef (Some oc)) ;;
    modify (set_nextStartTimeRef 0) ;;
    emit (getUserMedia (negb audioOnly)) ;;
    ret true.

(** [connect], lines 124-297: after [getUserMedia], which gave a stream
    or rejected ([None], the [catch] block). *)
Definition connect_resume (r : option MediaStream) : M unit :=
  match r with
  | Some stream =>
      modify (set_mediaStreamRef (Some stream)) ;;
      (* Attach video to ref for preview *)
      v <- gets videoRef ;;
      audioOnly <- gets connect_isAudioOnly ;;
      when (v && negb audioOnly) (emit video_play) ;;
      (* Track transcription state locally for this session *)
      modify (set_currentInputTranscription []) ;;
      modify (set_currentOutputTranscription []) ;;
      (* Connect to Gemini Live *)
      p <- new_object ;;
      emit (live_connect p) ;;
      modify (set_sessionRef (Some p))
  | None =>
      emit console_error ;;
      setState ERROR ;;
      disconnect
  end.

(** [onopen], lines 171-216. *)
Definition onopen : M unit :=
  emit console_log ;;
  setState CONNECTED ;;
  (* --- Audio Input Setup --- *)
  ic <- gets inputAudioContextRef ;;
  match ic with
  | None => emit console_warn
  | Some c =>
      processor <- new_object ;;
      emit (createScriptProcessor c processor) ;;
      modify (set_audioProcessorRef (Some processor)) ;;
      (* --- Video Input Setup --- *)
      audioOnly <- gets connect_isAudioOnly ;;
      cv <- gets canvasRef ;;
      v <- gets videoRef ;;
      when (negb audioOnly && cv && v)
        (i <- new_object ;;
         let id := Pos.of_succ_nat i in
         emit (setInterval id) ;;
         modify (set_videoIntervalRef (Some id)))
  end.

(** [processor.onaudioprocess], lines 185-190, on a block already encoded
    by [createPcmBlob]. *)
Definition onaudioprocess (pcmBlob : jsstring) : M unit :=
  ic <- gets inputAudioContextRef ;;
  match ic with
  | None => ret tt
  | Some _ => then_session (sendRealtimeInput_media pcmBlob)
  end.

(** The callback of the frame timer, lines 199-214.  [ready] says that
    the 2d context exists and the video element has enough data;
    [base64Data] is the frame the canvas gives. *)
Definition interval_tick (ready : bool) (base64Data : jsstring) : M unit :=
  muted <- gets isAudioOnlyRef ;;
  if muted then ret tt
  else
    v <- gets videoRef ;;
    if v && ready then
      cv <- gets canvasRef ;;
      if cv then
        emit canvas_drawImage ;;
        then_session (sendRealtimeInput_image base64Data)
      else throw                   (* [canvasRef.current!] is null *)
    else ret tt.

(** [msg.toolCall] handling, lines 219-235. *)
Definition is_updateClarity (fc : FunctionCall) : bool :=
  match fc_name fc with
  | Some n => strict_eq n (lit "updateClarity")
  | None => false
  end.

Definition handleFunctionCall (fc : FunctionCall) : M unit :=
  when (is_updateClarity fc)
    (emit (onClarityUpdate (fc_args fc)) ;;
     (* Acknowledge the tool call *)
     then_session (sendToolResponse (fc_id fc) (fc_name fc))).

Definition handleToolCall (msg : LiveServerMessage) : M unit :=
  match toolCall msg with
  | Some tc =>
      match functionCalls tc with
      | Some fcs => forEach handleFunctionCall fcs
      | None => throw              (* [for ... of undefined] *)
      end
  | None => ret tt
  end.

(** [msg.serverContent?.modelTurn?.parts?.[0]?.inlineData?.data] *)
Definition audioData (msg : LiveServerMessage) : option jsstring :=
  match serverContent msg with
  | Some sc =>
      match modelTurn sc with
      | Some mt =>
          match parts mt with
          | Some ps =>
              match nth_error ps 0 with
              | Some p =>
                  match inlineData p with
                  | Some b => blob_data b
                  | None => None
                  end
              | None => None
              end
          | None => None
          end
      | None => None
      end
  | None => None
  end.

(** Scheduling, lines 243-256, for a decoded [buffer], with [now] what
    [ctx.currentTime] reads. *)
Definition schedule (ctx : AudioContext) (buffer : AudioBuffer) (now : Q)
  : M unit :=
  source <- new_object ;;
  emit (createBufferSource ctx source) ;;
  (* Ensure we don't schedule in the past *)
  modify (fun w => set_nextStartTimeRef (Qmax (nextStartTimeRef w) now) w) ;;
  startAt <- gets nextStartTimeRef ;;
  emit (source_start source ctx buffer startAt) ;;
  modify (fun w =>
    set_nextStartTimeRef (nextStartTimeRef w + duration buffer)%Q w) ;;
  modify (fun w =>
    set_sourceNodesRef
      (if in_dec Nat.eq_dec source (sourceNodesRef w) then sourceNodesRef w
       else sourceNodesRef w ++ [source]) w).

(** [source.onended], line 256. *)
Definition onended (source : AudioBufferSourceNode) : M unit :=
  modify (fun w =>
    set_sourceNodesRef
      (filter (fun n => negb (Nat.eqb n source)) (sourceNodesRef w)) w).

Definition transcription_text (t : option Transcription) : option jsstring :=
  match t with Some t => tr_text t | None => None end.

Definition inputText (msg : LiveServerMessage) : option jsstring :=
  match serverContent msg with
  | Some sc => transcription_text (inputTranscription sc)
  | None => None
  end.

Definition outputText (msg : LiveServerMessage) : option jsstring :=
  match serverContent msg with
  | Some sc => transcription_text (outputTranscription sc)
  | None => None
  end.

Definition isTurnComplete (msg : LiveServerMessage) : bool :=
  match serverContent msg with
  | Some sc => match turnComplete sc with Some b => b | None => false end
  | None => false
  end.

(** Transcription handling, lines 259-277. *)
Definition handleTranscription (msg : LiveServerMessage) : M unit :=
  match inputText msg with
  | Some t =>
      when (truthy t)
        (modify (fun w =>
           set_currentInputTranscription (currentInputTranscription w ++ t) w))
  | None => ret tt
  end ;;
  match outputText msg with
  | Some t =>
      when (truthy t)
        (modify (fun w =>
           set_currentOutputTranscription (currentOutputTranscription w ++ t) w))
  | None => ret tt
  end ;;
  (* Commit transcription on turn complete *)
  when (isTurnComplete msg)
    (i <- gets currentInputTranscription ;;
     when (truthy (trim i))
       (emit (onTranscription i user) ;;
        modify (set_currentInputTranscription [])) ;;
     o <- gets currentOutputTranscription ;;
     when (truthy (trim o))
       (emit (onTranscription o model) ;;
        modify (set_currentOutputTranscription []))).

(** [onmessage] after the tool calls, lines 237-241 and, when there is
    no audio to decode, 259-277. *)
Definition onmessage_rest (msg : LiveServerMessage) : M (option DecodeTask) :=
  oc <- gets outputAudioContextRef ;;
  match audioData msg, oc with
  | Some d, Some ctx =>
      if truthy d then
        emit (decodeAudioData d ctx) ;;        (* await *)
        ret (Some {| task_msg := msg; task_ctx := ctx |})
      else handleTranscription msg ;; ret None
  | _, _ => handleTranscription msg ;; ret None
  end.

(** [onmessage], lines 217-241: up to [await decodeAudioData], or to the
    end when the frame has no audio to decode.  The result is the
    suspended call, if any. *)
Definition onmessage (msg : LiveServerMessage) : M (option DecodeTask) :=
  handleToolCall msg ;; onmessage_rest msg.

(** [onmessage], lines 243-277: after the decode, which gave a buffer or
    rejected ([None]). *)
Definition onmessage_resume (t : DecodeTask) (buffer : option AudioBuffer)
    (now : Q) : M unit :=
  match buffer with
  | Some b => schedule (task_ctx t) b now ;; handleTranscription (task_msg t)
  | None => throw
  end.

(** [onclose] and [onerror], lines 279-287. *)
Definition onclose : M unit :=
  emit console_log ;; disconnect.

Definition onerror : M unit :=
  emit console_error ;; setState ERROR ;; disconnect.

(** [sendTextMessage], lines 307-313. *)
Definition sendTextMessage (text : jsstring) : M unit :=
  s <- gets sessionRef ;;
  match s with
  | Some _ => then_session (sendRealtimeInput_text text)
  | None => ret tt
  end.

(** ** What can happen to a hook *)

Inductive Event :=
| EvSetIsAudioOnly (b : bool)
| EvConnect (apiKey : jsstring)
| EvUserMedia (r : option MediaStream)
| EvOpen
| EvMessage (msg : LiveServerMessage)
| EvDecoded (i : nat) (buffer : option AudioBuffer) (now : Q)
| EvEnded (source : AudioBufferSourceNode)
| EvAudioProcess (pcmBlob : jsstring)
| EvTick (ready : bool) (base64Data : jsstring)
| EvClose
| EvError
| EvDisconnect
| EvSendText (text : jsstring)
| EvMicrotasks.

Definition remove_nth {A} (i : nat) (l : list A) : list A :=
  firstn i l ++ skipn (S i) l.

(** An event, as a program.  A frame whose audio is being decoded waits
    in [pendingDecodes]; decodes finish in any order.  The audio tap
    fires while a processor is wired, the timer while it is set. *)
Definition handle (e : Event) : M unit :=
  match e with
  | EvSetIsAudioOnly b => setIsAudioOnly b
  | EvConnect apiKey => connect apiKey ;; ret tt
  | EvUserMedia r => connect_resume r
  | EvOpen => onopen
  | EvMessage msg =>
      t <- onmessage msg ;;
      match t with
      | Some t => modify (fun w => set_pendingDecodes (pendingDecodes w ++ [t]) w)
      | None => ret tt
      end
  | EvDecoded i buffer now =>
      ts <- gets pendingDecodes ;;
      match nth_error ts i with
      | Some t =>
          modify (set_pendingDecodes (remove_nth i ts)) ;;
          onmessage_resume t buffer now
      | None => ret tt
      end
  | EvEnded source => onended source
  | EvAudioProcess pcmBlob =>
      p <- gets audioProcessorRef ;;
      match p with Some _ => onaudioprocess pcmBlob | None => ret tt end
  | EvTick ready base64Data =>
      i <- gets videoIntervalRef ;;
      match i with Some _ => interval_tick ready base64Data | None => ret tt end
  | EvClose => onclose
  | EvError => onerror
  | EvDisconnect => disconnect
  | EvSendText text => sendTextMessage text
  | EvMicrotasks => run_microtasks
  end.

(** A run of events: the world at the end and everything that was done.
    An event whose program throws keeps what it did before. *)
Fixpoint run (es : list Event) (w : World) : World * list Effect :=
  match es with
  | [] => (w, [])
  | e :: es' =>
      match handle e w with
      | {| result := _; world := w1; log := l1 |} =>
          let '(w', l) := run es' w1 in (w', l1 ++ l)
      end
  end.

(** ** Statements about the hook *)

(** The world [disconnect] leaves. *)
Definition torn_down (w : World) : World :=
  set_connectionState DISCONNECTED
    (set_sessionRef None
       (set_outputAudioContextRef None
          (set_sourceNodesRef
             (match outputAudioContextRef w with
              | Some _ => []
              | None => sourceNodesRef w
              end)
             (set_inputAudioContextRef None
                (set_videoIntervalRef None
                   (set_mediaStreamRef None w)))))).

(** What [disconnect] does, in order. *)
Definition teardown_log (w : World) : list Effect :=
  match mediaStreamRef w with
  | Some stream => map track_stop stream
  | None => []
  end ++
  match videoIntervalRef w with
  | Some i => [clearInterval i]
  | None => []
  end ++
  match inputAudioContextRef w with
  | Some c => [context_close c]
  | None => []
  end ++
  match outputAudioContextRef w with
  | Some c => map source_stop (sourceNodesRef w) ++ [context_close c]
  | None => []
  end ++
  [setConnectionState DISCONNECTED].

(** Every handle [disconnect] looks after is dropped. *)
Definition released (w : World) : Prop :=
  mediaStreamRef w = None /\ videoIntervalRef w = None /\
  inputAudioContextRef w = None /\ outputAudioContextRef w = None /\
  sessionRef w = None.

(** A relation between the world before a program, the world after it
    and its log, kept by a program. *)
Definition respects (R : World -> World -> list Effect -> Prop)
    {A} (m : M A) : Prop :=
  forall w, R w (world (m w)) (log (m w)).

(** The messages of a kind sent through the session in a log, and the
    ones of that kind still waiting in the microtask queue. *)
Definition sent (p : Outbound -> bool) (l : list Effect) : list Outbound :=
  flat_map (fun e =>
    match e with
    | session_send o => if p o then [o] else []
    | _ => []
    end) l.

Definition pending (p : Outbound -> bool) (w : World) : list Outbound :=
  filter p (microtasks w).

Definition is_ack (o : Outbound) : bool :=
  match o with sendToolResponse _ _ => true | _ => false end.


(** The clarity states handed to the UI in a log. *)
Definition published (l : list Effect) : list (option ClarityUpdate) :=
  flat_map (fun e =>
    match e with onClarityUpdate u => [u] | _ => [] end) l.

(** The acknowledgement of an invocation. *)
Definition ack (fc : FunctionCall) : Outbound :=
  sendToolResponse (fc_id fc) (fc_name fc).

(** The clarity-update invocations an event brings. *)
Definition invocations (e : Event) : list FunctionCall :=
  match e with
  | EvMessage msg =>
      match toolCall msg with
      | Some tc =>
          match functionCalls tc with
          | Some fcs => filter is_updateClarity fcs
          | None => []
          end
      | None => []
      end
  | _ => []
  end.

(** No message of kind [p] enters the queue, and nothing is published. *)
Definition quiet (p : Outbound -> bool) (w w' : World) (l : list Effect)
  : Prop :=
  sent p l ++ pending p w' = pending p w /\ published l = [].

(** The effects that decode or schedule audio. *)
Definition is_playback (e : Effect) : bool :=
  match e with
  | decodeAudioData _ _ | createBufferSource _ _ | source_start _ _ _ _ => true
  | _ => false
  end.

(** A program that neither decodes nor schedules audio, and leaves the
    playback cursor, the set of sources and the decodes under way as
    they are. *)
Definition no_playback (w w' : World) (l : list Effect) : Prop :=
  filter is_playback l = [] /\
  nextStartTimeRef w' = nextStartTimeRef w /\
  sourceNodesRef w' = sourceNodesRef w /\
  pendingDecodes w' = pendingDecodes w.

(** A frame with the given tool call and server content. *)
Definition tool_frame (sc : option LiveServerContent) (fcs : list FunctionCall)
  : LiveServerMessage :=
  {| toolCall := Some {| functionCalls := Some fcs |}; serverContent := sc |}.

(** A frame whose model turn has the given parts. *)
Definition parts_frame (tc : option LiveServerToolCall) (done : option bool)
    (it ot : option Transcription) (ps : list Part) : LiveServerMessage :=
  {| toolCall := tc;
     serverContent := Some {| modelTurn := Some {| parts := Some ps |};
                              turnComplete := done;
                              inputTranscription := it;
                              outputTranscription := ot |} |}.

(** ** Sample data *)

(** An environment in which [source.stop()] never raises. *)
Definition calm : AudioBufferSourceNode -> bool := fun _ => false.

Definition microphone : MediaStreamTrack :=
  {| track_kind := audioTrack; track_id := 0 |}.

Definition camera : MediaStreamTrack :=
  {| track_kind := videoTrack; track_id := 1 |}.

(** A session that has connected with video and opened. *)
Definition connected_world : World :=
  fst (run [EvConnect (lit "key"); EvUserMedia (Some [microphone; camera]);
            EvOpen]
           (init_world calm)).

(** The invocation of the spec's scenario, and another one. *)
Definition jargon_call : FunctionCall :=
  {| fc_id := Some (lit "call-1");
     fc_name := Some (lit "updateClarity");
     fc_args := Some {| score := 42;
                        reasoning := lit "too much jargon";
                        language := Some (lit "English") |} |}.

Definition vague_call : FunctionCall :=
  {| fc_id := Some (lit "call-2");
     fc_name := Some (lit "updateClarity");
     fc_args := Some {| score := 7;
                        reasoning := lit "vague";
                        language := None |} |}.

(** A call of a tool the hook does not know. *)
Definition theme_call : FunctionCall :=
  {| fc_id := Some (lit "call-9");
     fc_name := Some (lit "setTheme");
     fc_args := None |}.

Definition text_part : Part :=
  {| inlineData := None; part_text := Some (lit "hi") |}.

Definition audio_part : Part :=
  {| inlineData := Some {| blob_data := Some (lit "UklGRg==");
                           blob_mimeType := Some (lit "audio/pcm") |};
     part_text := None |}.

Definition turn_of (ps : list Part) : LiveServerContent :=
  {| modelTurn := Some {| parts := Some ps |}; turnComplete := None;
     inputTranscription := None; outputTranscription := None |}.

(** ** Statements about transcripts *)

(** The text a frame adds to an accumulator: none when the property is
    missing. *)
Definition fragment (o : option jsstring) : jsstring :=
  match o with Some t => t | None => [] end.

(** The transcription events of a log. *)
Definition transcripts (l : list Effect) : list (jsstring * Direction) :=
  flat_map (fun e =>
    match e with onTranscription t d => [(t, d)] | _ => [] end) l.

(** What a turn boundary hands to the UI, given the two accumulators. *)
Definition flush (i o : jsstring) : list Effect :=
  (if truthy (trim i) then [onTranscription i user] else []) ++
  (if truthy (trim o) then [onTranscription o model] else []).

(** What a turn boundary leaves in an accumulator. *)
Definition kept (s : jsstring) : jsstring :=
  if truthy (trim s) then [] else s.


(** A frame that carries only a fragment of what the user said. *)
Definition user_fragment (t : jsstring) : LiveServerMessage :=
  {| toolCall := None;
     serverContent :=
       Some {| modelTurn := None; turnComplete := None;
               inputTranscription := Some {| tr_text := Some t |};
               outputTranscription := None |} |}.

(** A frame that carries only the turn-boundary marker. *)
Definition turn_boundary : LiveServerMessage :=
  {| toolCall := None;
     serverContent :=
       Some {| modelTurn := None; turnComplete := Some true;
               inputTranscription := None;
               outputTranscription := None |} |}.

(** ** Statements about frame sampling *)

(** The effects of frame sampling: arming the timer and drawing a frame. *)
Definition is_sampling (e : Effect) : bool :=
  match e with
  | canvas_drawImage | setInterval _ => true
  | _ => false
  end.

(** An event that begins a session: [connect] with a key. *)
Definition starts_session (e : Event) : bool :=
  match e with EvConnect apiKey => truthy apiKey | _ => false end.

(** The audio tap forwards blocks: a processor is wired and the input
    context is there. *)
Definition tap_live (w : World) : bool :=
  match audioProcessorRef w, inputAudioContextRef w with
  | Some _, Some _ => true
  | _, _ => false
  end.



(** ** Statements about the playback schedule *)

(** The buffers started in a log: the time each was scheduled at and its
    duration. *)
Definition scheduled (l : list Effect) : list (Q * Q) :=
  flat_map (fun e =>
    match e with
    | source_start _ _ b t => [(t, duration b)]
    | _ => []
    end) l.

(** Buffers laid out between [lo] and [hi]: each starts no earlier than
    the end of the one before, and lasts a time that is not negative. *)
Fixpoint chained (lo : Q) (s : list (Q * Q)) (hi : Q) : Prop :=
  match s with
  | [] => lo <= hi
  | (t, d) :: r => lo <= t /\ 0 <= d /\ chained (t + d) r hi
  end.

(** Each buffer starts no earlier than the end of the one before. *)
Fixpoint back_to_back (s : list (Q * Q)) : Prop :=
  match s with
  | [] => True
  | (t1, d1) :: r =>
      match r with
      | [] => True
      | (t2, _) :: _ => t1 + d1 <= t2
      end /\ back_to_back r
  end.

(** A program lays the buffers it starts between the cursor it finds and
    the cursor it leaves. *)
Definition on_schedule (w w' : World) (l : list Effect) : Prop :=
  chained (nextStartTimeRef w) (scheduled l) (nextStartTimeRef w').

(** Two buffers, of half a second and of three tenths of a second, at
    the output rate. *)
Definition half_second : AudioBuffer :=
  {| buf_length := 12000; buf_sampleRate := 24000 |}.

Definition three_tenths : AudioBuffer :=
  {| buf_length := 7200; buf_sampleRate := 24000 |}.

(** A frame with audio in its first part. *)
Definition audio_frame : LiveServerMessage :=
  parts_frame None None None None [audio_part].

(** ** Statements about the channel and the capture *)

Definition is_text (o : Outbound) : bool :=
  match o with sendRealtimeInput_text _ => true | _ => false end.



(** [getUserMedia] resolves with a stream. *)
Definition offers_stream (e : Event) : bool :=
  match e with EvUserMedia (Some _) => true | _ => false end.

(** A program that leaves the channel reference and queues no text. *)
Definition no_text (w w' : World) (l : list Effect) : Prop :=
  (sessionRef w' = sessionRef w \/ sessionRef w' = None) /\
  sent is_text l ++ pending is_text w' = pending is_text w.

(** While no channel is held, none is taken and no text is queued. *)
Definition text_dropped (w w' : World) (l : list Effect) : Prop :=
  sessionRef w = None ->
  sessionRef w' = None /\
  sent is_text l ++ pending is_text w' = pending is_text w.








(** A session with two buffers playing, sources 5 and 6. *)
Definition playing_world : World :=
  fst (run [EvMessage audio_frame; EvDecoded 0 (Some half_second) 0;
            EvMessage audio_frame; EvDecoded 0 (Some three_tenths) 0]
           connected_world).

(** A frame with audio in its first part, a fragment of what the user
    said and the turn-boundary marker. *)
Definition full_frame : LiveServerMessage :=
  parts_frame None (Some true) (Some {| tr_text := Some (lit "last") |}) None
    [audio_part].

(** * The component [App] (src/App.tsx)

    The state of the component that the functions below read or write,
    and those functions.  [API_KEY] and [WELCOME_MESSAGE], constants of
    the module, are arguments. *)

Module App.

(** [Lesson] and [ChatMessage] of ./types. *)
Record Lesson := {
  id : jsstring;
  timestamp : jsstring;
  topic : jsstring;
  summary : jsstring;
  averageScore : Z
}.

Record ChatMessage := { role : Direction; text : jsstring }.

Record State := {
  clarity : ClarityUpdate;
  messages : list ChatMessage;
  pastLessons : list Lesson;
  currentTopic : jsstring;
  (* [localStorage]: the lessons whose JSON is under 'feynman_lessons' *)
  feynman_lessons : option (list Lesson)
}.

(** The effect that loads the history, lines 48-53. *)
Definition loadHistory (a : State) : State :=
  match feynman_lessons a with
  | Some saved =>
      {| clarity := clarity a; messages := messages a; pastLessons := saved;
         currentTopic := currentTopic a;
         feynman_lessons := feynman_lessons a |}
  | None => a
  end.

(** [handleClarityUpdate], lines 55-57. *)
Definition handleClarityUpdate (update : ClarityUpdate) (a : State) : State :=
  {| clarity := update; messages := messages a;
     pastLessons := pastLessons a; currentTopic := currentTopic a;
     feynman_lessons := feynman_lessons a |}.

(** [handleTranscription], lines 59-61. *)
Definition handleTranscription (text : jsstring) (role : Direction)
    (a : State) : State :=
  {| clarity := clarity a;
     messages := messages a ++ [{| role := role; text := text |}];
     pastLessons := pastLessons a; currentTopic := currentTopic a;
     feynman_lessons := feynman_lessons a |}.

(** The string a role is. *)
Definition role_string (r : Direction) : jsstring :=
  match r with user => lit "user" | model => lit "model" end.

(** [l.join(sep)] *)
Fixpoint join (sep : jsstring) (l : list jsstring) : jsstring :=
  match l with
  | [] => []
  | x :: r =>
      match r with
      | [] => x
      | _ :: _ => x ++ sep ++ join sep r
      end
  end.

(** [messages.map(m => `${m.role}: ${m.text}`).join('\n')], line 92. *)
Definition transcriptText (ms : list ChatMessage) : jsstring :=
  join [10%N] (map (fun m => role_string (role m) ++ lit ": " ++ text m) ms).

(** [currentTopic.trim() || "Untitled Session"], line 93. *)
Definition topicToSave (currentTopic : jsstring) : jsstring :=
  if truthy (trim currentTopic) then trim currentTopic
  else lit "Untitled Session".

(** The test of line 100: is a summary asked for. *)
Definition wants_summary (transcriptText API_KEY : jsstring) : bool :=
  truthy (trim transcriptText) && truthy API_KEY.

(** [summaryText], lines 99-123.  [outcome] is what [generateContent]
    did when it was called: [Some text] for a response whose [text] is
    [text], [None] when it threw (the error is logged). *)
Definition summaryText (transcriptText API_KEY : jsstring)
    (outcome : option (option jsstring)) : jsstring :=
  if wants_summary transcriptText API_KEY then
    match outcome with
    | Some (Some t) => if truthy t then t else lit "No summary generated."
    | Some None => lit "No summary generated."
    | None => lit "Error generating summary."
    end
  else lit "No summary available.".

(** What [finishLesson] holds on to across its [await]. *)
Record Capture := {
  finalScore : Z;
  cap_transcriptText : jsstring;
  cap_topicToSave : jsstring;
  cap_pastLessons : list Lesson
}.

(** [finishLesson], lines 89-96: up to the call for a summary. *)
Definition finishLesson (a : State) : M Capture :=
  (* 1. Capture state needed for saving *)
  let c := {| finalScore := score (clarity a);
              cap_transcriptText := transcriptText (messages a);
              cap_topicToSave := topicToSave (currentTopic a);
              cap_pastLessons := pastLessons a |} in
  (* 2. Disconnect immediately *)
  disconnect ;;
  ret c.

(** [finishLesson], lines 98-141: from the summary on.  [now] is
    [Date.now().toString()] and [locale] is [new Date().toLocaleString()]. *)
Definition finishLesson_save (WELCOME_MESSAGE API_KEY : jsstring)
    (c : Capture) (outcome : option (option jsstring))
    (now locale : jsstring) (a : State) : State :=
  (* 4. Create and Save Lesson *)
  let newLesson :=
    {| id := now; timestamp := locale; topic := cap_topicToSave c;
       summary := summaryText (cap_transcriptText c) API_KEY outcome;
       averageScore := finalScore c |} in
  let updatedLessons := newLesson :: cap_pastLessons c in
  (* 5. Reset UI State *)
  {| clarity := {| score := 0; reasoning := lit "Lesson finished.";
                   language := None |};
     messages := [{| role := model; text := WELCOME_MESSAGE |}];
     pastLessons := updatedLessons;
     currentTopic := [];
     feynman_lessons := Some updatedLessons |}.

(** [deleteLesson], lines 144-149. *)
Definition deleteLesson (id0 : jsstring) (a : State) : State :=
  let updated :=
    filter (fun l => negb (strict_eq (id l) id0)) (pastLessons a) in
  {| clarity := clarity a; messages := messages a; pastLessons := updated;
     currentTopic := currentTopic a; feynman_lessons := Some updated |}.

(** The chat cleared and the score reset, lines 83-84. *)
Definition start_lesson (a : State) : State :=
  {| clarity := {| score := 0; reasoning := lit "Starting lesson...";
                   language := None |};
     messages := [];
     pastLessons := pastLessons a; currentTopic := currentTopic a;
     feynman_lessons := feynman_lessons a |}.

(** [toggleSession], lines 79-87, with the connection state the hook
    shows.  The result is the state of the component and, when the
    lesson is being finished, what [finishLesson] holds on to. *)
Definition toggleSession (API_KEY : jsstring) (a : State)
  : M (State * option Capture) :=
  cs <- gets connectionState ;;
  match cs with
  | CONNECTED | CONNECTING =>
      c <- finishLesson a ;;
      ret (a, Some c)
  | _ =>
      connect API_KEY ;;
      ret (start_lesson a, None)
  end.

(** [getColor] of the gauge, lines 452-456, and the colour of the
    figure, line 464; the score is the integer the tool declares. *)
Definition getColor (val : Z) : jsstring :=
  if (80 <=? val)%Z then lit "bg-emerald-500"
  else if (50 <=? val)%Z then lit "bg-yellow-500"
  else lit "bg-red-500".

Definition figureColor (score : Z) : jsstring :=
  if (80 <=? score)%Z then lit "text-emerald-400"
  else if (50 <=? score)%Z then lit "text-yellow-400"
  else lit "text-red-400".

End App.

(** ** Sample data for the component *)

Definition lesson_a : App.Lesson :=
  {| App.id := lit "1700000000001"; App.timestamp := lit "1/1/2025";
     App.topic := lit "entropy"; App.summary := lit "fine";
     App.averageScore := 70 |}.

Definition lesson_b : App.Lesson :=
  {| App.id := lit "1700000000002"; App.timestamp := lit "1/2/2025";
     App.topic := lit "recursion"; App.summary := lit "good";
     App.averageScore := 85 |}.

(** A component in the middle of a lesson, with two lessons in its
    history. *)
Definition busy_app : App.State :=
  {| App.clarity := {| score := 42; reasoning := lit "too much jargon";
                       language := Some (lit "English") |};
     App.messages := [{| App.role := user; App.text := lit "explains" |}];
     App.pastLessons := [lesson_a; lesson_b];
     App.currentTopic := lit " heat ";
     App.feynman_lessons := Some [lesson_a; lesson_b] |}.

(** ** Statements about playback after a teardown *)

(** A program that starts no decode, schedules nothing, leaves the
    cursor and the decodes under way, and creates no output context. *)
Definition playback_idle (w w' : World) (l : list Effect) : Prop :=
  (outputAudioContextRef w' = outputAudioContextRef w \/
   outputAudioContextRef w' = None) /\
  pendingDecodes w' = pendingDecodes w /\
  filter is_playback l = [] /\
  nextStartTimeRef w' = nextStartTimeRef w.

(** With no output context and no decode under way, a program leaves it
    so, decodes and schedules nothing and leaves the cursor. *)
Definition playback_off (w w' : World) (l : list Effect) : Prop :=
  outputAudioContextRef w = None -> pendingDecodes w = [] ->
  outputAudioContextRef w' = None /\ pendingDecodes w' = [] /\
  filter is_playback l = [] /\
  nextStartTimeRef w' = nextStartTimeRef w.

(** * Properties *)

(** ** Strings *)

Lemma trimStart_nil_iff (s : jsstring) :
  trimStart s = [] <-> forallb is_white_space s = true.
Proof.
  induction s as [|c r IH]; simpl.
  - tauto.
  - destruct (is_white_space c); simpl.
    + exact IH.
    + split; discriminate.
Qed.

Lemma trimStart_has_ink (s : jsstring) : has_ink (trimStart s) = has_ink s.
Proof.
  induction s as [|c r IH]; simpl; trivial.
  destruct (is_white_space c) eqn:E; simpl.
  - exact IH.
  - now rewrite E.
Qed.

Lemma has_ink_rev (s : jsstring) : has_ink (rev s) = has_ink s.
Proof.
  unfold has_ink. induction s as [|c r IH]; simpl; trivial.
  rewrite existsb_app, IH. simpl.
  rewrite orb_false_r. apply orb_comm.
Qed.

Lemma has_ink_forallb (s : jsstring) :
  has_ink s = negb (forallb is_white_space s).
Proof.
  unfold has_ink. induction s as [|c r IH]; simpl; trivial.
  rewrite IH. now destruct (is_white_space c).
Qed.

Lemma truthy_trimStart (s : jsstring) : truthy (trimStart s) = has_ink s.
Proof.
  rewrite has_ink_forallb.
  destruct (trimStart s) eqn:E; simpl.
  - apply trimStart_nil_iff in E. now rewrite E.
  - destruct (forallb is_white_space s) eqn:F; trivial.
    apply trimStart_nil_iff in F. congruence.
Qed.

Lemma truthy_rev (s : jsstring) : truthy (rev s) = truthy s.
Proof.
  destruct s as [|c r]; simpl; trivial.
  destruct (rev r ++ [c]) eqn:E; trivial.
  now apply app_eq_nil in E.
Qed.

(** [s.trim()] is truthy exactly when [s] has a code unit that is not
    white space. *)
Lemma truthy_trim (s : jsstring) : truthy (trim s) = has_ink s.
Proof.
  unfold trim, trimEnd.
  now rewrite truthy_rev, truthy_trimStart, has_ink_rev, trimStart_has_ink.
Qed.

(** ** Loops *)

Lemma forEach_emit {A} (f : A -> Effect) (l : list A) (w : World) :
  forEach (fun x => emit (f x)) l w =
  {| result := Some tt; world := w; log := map f l |}.
Proof.
  induction l as [|x r IH]; simpl; trivial.
  unfold bind. simpl. now rewrite IH.
Qed.

(** Stopping every source, each in its own [try]: all the calls are made
    and none of them gets out. *)
Lemma forEach_stop (l : list AudioBufferSourceNode) (w : World) :
  forEach (fun source => try_swallow (stop source)) l w =
  {| result := Some tt; world := w; log := map source_stop l |}.
Proof.
  induction l as [|x r IH]; simpl; trivial.
  unfold bind. simpl. now rewrite IH.
Qed.

(** ** The monad *)

Lemma bind_eq {A B} (m : M A) (k : A -> M B) (w : World) :
  bind m k w =
  match result (m w) with
  | Some a =>
      {| result := result (k a (world (m w)));
         world := world (k a (world (m w)));
         log := log (m w) ++ log (k a (world (m w))) |}
  | None => {| result := None; world := world (m w); log := log (m w) |}
  end.
Proof.
  unfold bind. destruct (m w) as [[a|] w1 l1]; cbn [result world log]; trivial.
  now destruct (k a w1).
Qed.

Lemma run_cons (e : Event) (es : list Event) (w : World) :
  run (e :: es) w =
  (fst (run es (world (handle e w))),
   log (handle e w) ++ snd (run es (world (handle e w)))).
Proof.
  cbn [run]. destruct (handle e w) as [r w1 l1]. cbn [world log].
  now destruct (run es w1).
Qed.

(** ** Teardown *)

Lemma disconnect_eq (w : World) :
  disconnect w =
  {| result := Some tt; world := torn_down w; log := teardown_log w |}.
Proof.
  unfold disconnect, torn_down, teardown_log, setState.
  destruct w as [cs ao aor vr cr ic oc ms ap sr vi ns sn cao cit cot mt pd st fr].
  destruct ms as [stream|], vi as [i|], ic as [c1|], oc as [c2|];
    unfold bind, gets, modify, ret; cbn;
    rewrite ?forEach_emit, ?forEach_stop; cbn;
    rewrite ?forEach_emit, ?forEach_stop; cbn;
    rewrite ?app_nil_r, <- ?app_assoc; try reflexivity.
Qed.

Lemma torn_down_released (w : World) :
  connectionState (torn_down w) = DISCONNECTED /\ released (torn_down w).
Proof. unfold released. now destruct w. Qed.




(** With a source playing and [source.stop()] raising on every node,
    [disconnect] still runs to its end. *)
Example disconnect_swallows_stop_errors :
  let w := fst (run [EvConnect (lit "key"); EvUserMedia (Some [microphone]);
                     EvOpen; EvMessage audio_frame;
                     EvDecoded 0 (Some half_second) 0]
                    (init_world (fun _ => true))) in
  sourceNodesRef w = [5%nat] /\
  result (disconnect w) = Some tt /\
  In (source_stop 5%nat) (log (disconnect w)) /\
  connectionState (world (disconnect w)) = DISCONNECTED /\
  sourceNodesRef (world (disconnect w)) = [].
Proof. cbv zeta. repeat split. cbn. auto 10. Qed.

(** C2: when the error callback fires, the hook sets the state to
    [ERROR] and then runs [disconnect], the same teardown, whose last
    act is to set the state to [DISCONNECTED]: the state the UI ends up
    with is [DISCONNECTED], not [ERROR]. *)
Theorem onerror_ends_disconnected (w : World) :
  let r := onerror w in
  result r = Some tt /\
  log r = console_error :: setConnectionState ERROR :: log (disconnect w) /\
  world r = world (disconnect w) /\
  connectionState (world r) = DISCONNECTED /\
  connectionState (world r) <> ERROR /\
  fst (run [EvError] w) = world r.
Proof.
  cbv zeta. rewrite run_cons. cbn [run handle fst].
  unfold onerror, setState. rewrite !bind_eq. cbn [emit modify result world log].
  rewrite !disconnect_eq. cbn [result world log app].
  destruct w; cbn. repeat split; trivial. discriminate.
Qed.

(** The same at a connected session: the error callback leaves
    [DISCONNECTED]. *)
Example onerror_connected :
  connectionState connected_world = CONNECTED /\
  connectionState (fst (run [EvError] connected_world)) = DISCONNECTED.
Proof. split; reflexivity. Qed.

(** [connect] with a falsy key. *)
Lemma connect_falsy (apiKey : jsstring) (w : World) :
  truthy apiKey = false ->
  connect apiKey w =
    {| result := Some false; world := w; log := [console_error] |}.
Proof. intros H. unfold connect. now rewrite H. Qed.

(** C8: with no API key, [connect] logs an error and returns: the world
    is as it was (connection state included), nothing is acquired, no
    channel is opened, and the call is not left waiting. *)
Theorem connect_without_key (apiKey : jsstring) (w : World) :
  truthy apiKey = false ->
  connect apiKey w =
    {| result := Some false; world := w; log := [console_error] |} /\
  run [EvConnect apiKey] w = (w, [console_error]).
Proof.
  intros H. rewrite run_cons. cbn [run handle fst snd].
  rewrite bind_eq, (@connect_falsy apiKey w H). cbn.
  split; reflexivity.
Qed.

Lemma connect_without_key_witness :
  truthy [] = false /\
  connect [] (init_world calm) =
    {| result := Some false; world := init_world calm;
       log := [console_error] |} /\
  run [EvConnect []] (init_world calm) = (init_world calm, [console_error]).
Proof.
  split; [reflexivity|].
  apply (@connect_without_key [] (init_world calm)); reflexivity.
Defined.

(** ** Programs that keep a relation *)

Section Respects.

Variable R : World -> World -> list Effect -> Prop.
Hypothesis R_refl : forall w, R w w [].
Hypothesis R_trans : forall w1 w2 w3 l1 l2,
    R w1 w2 l1 -> R w2 w3 l2 -> R w1 w3 (l1 ++ l2).

Lemma respects_ret A (a : A) : respects R (ret a).
Proof. intro w. apply R_refl. Qed.

Lemma respects_gets A (f : World -> A) : respects R (gets f).
Proof. intro w. apply R_refl. Qed.

Lemma respects_throw A : respects R (@throw A).
Proof. intro w. apply R_refl. Qed.

Lemma respects_bind A B (m : M A) (k : A -> M B) :
  respects R m -> (forall a, respects R (k a)) -> respects R (bind m k).
Proof.
  intros Hm Hk w. rewrite bind_eq.
  destruct (result (m w)) as [a|]; cbn [world log].
  - eapply R_trans; [apply Hm | apply Hk].
  - apply Hm.
Qed.

Lemma respects_try (m : M unit) : respects R m -> respects R (try_swallow m).
Proof.
  intros Hm w. specialize (Hm w). unfold try_swallow.
  now destruct (m w).
Qed.

Lemma respects_when (c : bool) (m : M unit) :
  respects R m -> respects R (when c m).
Proof. intros Hm. destruct c; [exact Hm | apply respects_ret]. Qed.

Lemma respects_forEach A (f : A -> M unit) (l : list A) :
  (forall x, respects R (f x)) -> respects R (forEach f l).
Proof.
  intros Hf. induction l as [|x r IH]; cbn [forEach].
  - apply respects_ret.
  - apply respects_bind; auto.
Qed.

(** A run of events each of which keeps the relation keeps it. *)
Lemma respects_run (ok : Event -> bool) :
  (forall e, ok e = true -> respects R (handle e)) ->
  forall es w, forallb ok es = true ->
    R w (fst (run es w)) (snd (run es w)).
Proof.
  intros H es. induction es as [|e es IH]; intros w Hes.
  - apply R_refl.
  - cbn [forallb] in Hes. apply andb_prop in Hes as [He Hes].
    rewrite run_cons. cbn [fst snd].
    eapply R_trans; [apply (H e He) | apply (IH _ Hes)].
Qed.

End Respects.

(** Takes a program apart down to its primitive steps, which [leaf]
    must settle; [known] settles the programs already dealt with. *)
Ltac respects_with Hrefl Htrans known leaf :=
  repeat first
    [ known
    | apply (respects_bind Htrans); [|intro]
    | apply (respects_ret _ Hrefl)
    | apply (respects_gets _ Hrefl)
    | apply (respects_throw _ Hrefl)
    | apply respects_try
    | apply (respects_when Hrefl)
    | apply (respects_forEach Hrefl Htrans); intro
    | match goal with
      | |- respects _ (match ?x with _ => _ end) => destruct x
      | |- respects _ (if ?x then _ else _) => destruct x
      end
    | progress unfold setState, setIsAudioOnly, disconnect, connect,
        connect_resume, onopen, onaudioprocess, interval_tick,
        handleFunctionCall, handleToolCall, onended,
        handleTranscription, onmessage, onmessage_rest, onmessage_resume,
        onclose, onerror,
        sendTextMessage, then_session
    | leaf ].

Lemma run_app (es1 es2 : list Event) (w : World) :
  run (es1 ++ es2) w =
  (fst (run es2 (fst (run es1 w))),
   snd (run es1 w) ++ snd (run es2 (fst (run es1 w)))).
Proof.
  revert w. induction es1 as [|e es IH]; intros w; cbn [app].
  - cbn [run fst snd app]. now destruct (run es2 w).
  - rewrite !run_cons, IH. cbn [fst snd]. now rewrite app_assoc.
Qed.

(** ** What goes out through the session *)

Lemma sent_app p (l1 l2 : list Effect) :
  sent p (l1 ++ l2) = sent p l1 ++ sent p l2.
Proof. apply flat_map_app. Qed.

Lemma published_app (l1 l2 : list Effect) :
  published (l1 ++ l2) = published l1 ++ published l2.
Proof. apply flat_map_app. Qed.

Lemma sent_session_send p (l : list Outbound) :
  sent p (map session_send l) = filter p l.
Proof.
  induction l as [|o r IH]; cbn; trivial.
  destruct (p o); cbn; now rewrite <- IH.
Qed.

Lemma published_session_send (l : list Outbound) :
  published (map session_send l) = [].
Proof. induction l; cbn; trivial. Qed.

Lemma quiet_refl p (w : World) : quiet p w w [].
Proof. now split. Qed.

Lemma quiet_trans p (w1 w2 w3 : World) (l1 l2 : list Effect) :
  quiet p w1 w2 l1 -> quiet p w2 w3 l2 -> quiet p w1 w3 (l1 ++ l2).
Proof.
  unfold quiet. intros [H1 P1] [H2 P2]. split.
  - now rewrite sent_app, <- app_assoc, H2.
  - now rewrite published_app, P1, P2.
Qed.

Ltac quiet_leaf :=
  let w := fresh "w" in
  intro w; destruct w;
  unfold quiet, pending, schedule, bind, gets, ret, emit, modify, new_object,
    stop, run_microtasks;
  cbn [world log result];
  rewrite ?sent_session_send, ?published_session_send;
  cbn -[Qmax Qplus duration in_dec];
  rewrite ?filter_app; cbn -[Qmax Qplus duration in_dec];
  rewrite ?app_nil_r; auto.

Ltac quiet_tac p :=
  respects_with (quiet_refl p) (@quiet_trans p) fail quiet_leaf.

Lemma handleFunctionCall_eq (fc : FunctionCall) (w : World) :
  handleFunctionCall fc w =
  if is_updateClarity fc then
    {| result := Some tt;
       world := set_microtasks (microtasks w ++ [ack fc]) w;
       log := [onClarityUpdate (fc_args fc)] |}
  else ret tt w.
Proof.
  unfold handleFunctionCall. now destruct (is_updateClarity fc).
Qed.

(** The tool calls of a frame: each clarity update is published and its
    acknowledgement queued, in order; the other calls do nothing. *)
Lemma forEach_handleFunctionCall (fcs : list FunctionCall) (w : World) :
  forEach handleFunctionCall fcs w =
  {| result := Some tt;
     world := set_microtasks
                (microtasks w ++ map ack (filter is_updateClarity fcs)) w;
     log := map (fun fc => onClarityUpdate (fc_args fc))
                (filter is_updateClarity fcs) |}.
Proof.
  revert w. induction fcs as [|fc r IH]; intros w; cbn [forEach filter map].
  - unfold ret. rewrite app_nil_r. now destruct w.
  - rewrite bind_eq, handleFunctionCall_eq.
    destruct (is_updateClarity fc); cbn [ret result world log];
      rewrite IH; cbn [result world log app map]; trivial.
    destruct w; cbn. now rewrite <- app_assoc.
Qed.

Lemma handleToolCall_eq (msg : LiveServerMessage) (w : World) :
  handleToolCall msg w =
  match toolCall msg with
  | Some {| functionCalls := None |} =>
      {| result := None; world := w; log := [] |}
  | _ =>
      {| result := Some tt;
         world := set_microtasks
                    (microtasks w ++ map ack (invocations (EvMessage msg))) w;
         log := map (fun fc => onClarityUpdate (fc_args fc))
                    (invocations (EvMessage msg)) |}
  end.
Proof.
  unfold handleToolCall, invocations.
  destruct (toolCall msg) as [[[fcs|]]|]; cbn [functionCalls map].
  - apply forEach_handleFunctionCall.
  - reflexivity.
  - unfold ret. rewrite app_nil_r. now destruct w.
Qed.

Lemma onmessage_rest_quiet p msg : respects (quiet p) (onmessage_rest msg).
Proof. unfold onmessage_rest. quiet_tac p. Qed.

Lemma sent_publications p (l : list FunctionCall) :
  sent p (map (fun fc => onClarityUpdate (fc_args fc)) l) = [].
Proof. induction l; cbn; trivial. Qed.

Lemma published_publications (l : list FunctionCall) :
  published (map (fun fc => onClarityUpdate (fc_args fc)) l) = map fc_args l.
Proof.
  induction l as [|x r IH]; trivial.
  cbn [map]. unfold published in *. cbn [flat_map app]. now rewrite IH.
Qed.

Lemma filter_is_ack_acks (l : list FunctionCall) :
  filter is_ack (map ack l) = map ack l.
Proof.
  induction l as [|x r IH]; trivial.
  cbn [map filter ack is_ack]. now rewrite IH.
Qed.

(** A frame, up to the decode: the acknowledgements of its invocations
    join the queue and their arguments are published. *)
Lemma onmessage_acks (msg : LiveServerMessage) (w : World) :
  sent is_ack (log (onmessage msg w)) ++
    pending is_ack (world (onmessage msg w)) =
    pending is_ack w ++ map ack (invocations (EvMessage msg)) /\
  published (log (onmessage msg w)) = map fc_args (invocations (EvMessage msg)).
Proof.
  change (onmessage msg) with (handleToolCall msg ;; onmessage_rest msg).
  rewrite bind_eq, handleToolCall_eq.
  destruct (toolCall msg) as [[[fcs|]]|] eqn:Htc; cbn [result world log];
    try (unfold invocations; rewrite Htc; cbn [map functionCalls];
         rewrite app_nil_r; now split).
  all: match goal with
       | |- context [onmessage_rest ?m ?w1] =>
           destruct (onmessage_rest_quiet is_ack m w1) as [Hs Hp];
           set (r := onmessage_rest m w1) in *
       end;
       rewrite sent_app, published_app, sent_publications,
         published_publications, Hp, app_nil_r; cbn [app];
       split; trivial; rewrite Hs; unfold pending; destruct w; cbn;
       now rewrite filter_app, filter_is_ack_acks.
Qed.

Lemma handle_quiet_ack (e : Event) :
  invocations e = [] -> respects (quiet is_ack) (handle e).
Proof.
  destruct e; intros Hinv; cbn [handle]; try solve [quiet_tac is_ack].
  (* a frame *)
  apply (respects_bind (@quiet_trans is_ack)).
  - intro w. destruct (onmessage_acks msg w) as [Hs Hp].
    rewrite Hinv in Hs, Hp. rewrite app_nil_r in Hs. now split.
  - intro. quiet_tac is_ack.
Qed.

(** An event changes the acknowledgements sent or waiting by those of
    the invocations it brings, and publishes their arguments. *)
Lemma handle_acks (e : Event) (w : World) :
  sent is_ack (log (handle e w)) ++ pending is_ack (world (handle e w)) =
    pending is_ack w ++ map ack (invocations e) /\
  published (log (handle e w)) = map fc_args (invocations e).
Proof.
  destruct (invocations e) as [|fc0 r0] eqn:Hinv.
  - rewrite app_nil_r. now apply handle_quiet_ack.
  - destruct e; try discriminate Hinv. rewrite <- Hinv. clear Hinv fc0 r0.
    cbn [handle]. rewrite bind_eq.
    destruct (onmessage_acks msg w) as [Hs Hp].
    destruct (result (onmessage msg w)) as [[t|]|]; cbn [result world log];
      rewrite ?app_nil_r; try (now split).
    split; trivial. rewrite <- Hs. unfold pending, modify.
    destruct (world (onmessage msg w)); cbn [world set_pendingDecodes microtasks].
    reflexivity.
Qed.

Lemma run_acks (es : list Event) (w : World) :
  published (snd (run es w)) =
    flat_map (fun e => map fc_args (invocations e)) es /\
  sent is_ack (snd (run es w)) ++ pending is_ack (fst (run es w)) =
    pending is_ack w ++ flat_map (fun e => map ack (invocations e)) es.
Proof.
  revert w. induction es as [|e es IH]; intros w.
  - cbn. now rewrite app_nil_r.
  - rewrite run_cons. cbn [fst snd flat_map].
    destruct (IH (world (handle e w))) as [IHp IHs].
    destruct (handle_acks e w) as [Hs Hp].
    split.
    + now rewrite published_app, Hp, IHp.
    + rewrite sent_app, <- app_assoc, IHs, app_assoc, Hs.
      now rewrite <- app_assoc.
Qed.

(** C5: a function call named [updateClarity] hands its arguments, as
    they are, to the UI and queues one acknowledgement with its id and
    name.  Over any run of the hook the clarity states published are
    the arguments of the invocations received, in order, and the
    acknowledgements sent or still waiting are those of the same
    invocations, one each, whatever was published in between; a
    microtask checkpoint sends all that wait. *)
Theorem clarity_update_published_and_acknowledged :
  (forall fc w,
     is_updateClarity fc = true ->
     handleFunctionCall fc w =
       {| result := Some tt;
          world := set_microtasks (microtasks w ++ [ack fc]) w;
          log := [onClarityUpdate (fc_args fc)] |}) /\
  (forall es w,
     published (snd (run es w)) =
       flat_map (fun e => map fc_args (invocations e)) es /\
     sent is_ack (snd (run es w)) ++ pending is_ack (fst (run es w)) =
       pending is_ack w ++ flat_map (fun e => map ack (invocations e)) es) /\
  (forall es w,
     pending is_ack w = [] ->
     sent is_ack (snd (run (es ++ [EvMicrotasks]) w)) =
       flat_map (fun e => map ack (invocations e)) es /\
     pending is_ack (fst (run (es ++ [EvMicrotasks]) w)) = []).
Proof.
  split; [|split].
  - intros fc w H. unfold handleFunctionCall. rewrite H. reflexivity.
  - apply run_acks.
  - intros es w Hw.
    assert (Hp : pending is_ack (fst (run (es ++ [EvMicrotasks]) w)) = []).
    { rewrite run_app. cbn. now destruct (fst (run es w)). }
    split; trivial.
    destruct (run_acks (es ++ [EvMicrotasks]) w) as [_ Hs].
    rewrite Hp, Hw, flat_map_app in Hs. cbn in Hs.
    now rewrite !app_nil_r in Hs.
Qed.

Lemma clarity_update_witness :
  (is_updateClarity jargon_call = true /\
   handleFunctionCall jargon_call connected_world =
     {| result := Some tt;
        world := set_microtasks
                   (microtasks connected_world ++ [ack jargon_call])
                   connected_world;
        log := [onClarityUpdate (fc_args jargon_call)] |}) /\
  (pending is_ack connected_world = [] /\
   sent is_ack
     (snd (run ([EvMessage (tool_frame None [jargon_call; vague_call])]
                ++ [EvMicrotasks]) connected_world))
   = [ack jargon_call; ack vague_call]).
Proof.
  split.
  - split; [reflexivity|].
    apply (proj1 clarity_update_published_and_acknowledged); reflexivity.
  - split; [reflexivity|].
    etransitivity.
    + apply (proj2 (proj2 clarity_update_published_and_acknowledged));
        reflexivity.
    + reflexivity.
Defined.

(** ** Frames *)

Lemma filter_idem {A} (p : A -> bool) (l : list A) :
  filter p (filter p l) = filter p l.
Proof.
  induction l as [|x r IH]; cbn; trivial.
  destruct (p x) eqn:E; cbn; rewrite ?E, IH; trivial.
Qed.

(** Two frames with the same tool calls, the same audio in their first
    part and the same transcription are handled alike. *)
Lemma onmessage_ext (msg msg' : LiveServerMessage) (w : World) :
  (forall w0, handleToolCall msg w0 = handleToolCall msg' w0) ->
  audioData msg = audioData msg' ->
  (forall w0, handleTranscription msg w0 = handleTranscription msg' w0) ->
  let r := onmessage msg w in
  let r' := onmessage msg' w in
  log r = log r' /\ world r = world r' /\
  option_map (option_map task_ctx) (result r) =
    option_map (option_map task_ctx) (result r').
Proof.
  intros Ht Ha Hx. cbv zeta.
  change (onmessage msg) with (handleToolCall msg ;; onmessage_rest msg).
  change (onmessage msg') with (handleToolCall msg' ;; onmessage_rest msg').
  rewrite !bind_eq, <- Ht.
  destruct (handleToolCall msg w) as [[[]|] w1 l1]; cbn [result world log];
    auto.
  unfold onmessage_rest. rewrite !bind_eq, <- Ha.
  cbn [gets result world log].
  destruct (audioData msg) as [d|];
    [destruct (outputAudioContextRef w1) as [ctx|]; [destruct (truthy d)|]|];
    rewrite ?bind_eq, <- ?Hx; cbn [emit ret result world log];
    try (destruct (result (handleTranscription msg w1)));
    cbn [result world log option_map task_ctx]; auto.
Qed.

(** C10: a function call whose name is not [updateClarity] does nothing:
    nothing is published, no acknowledgement is queued, nothing is
    thrown; the frame is handled as the frame without such calls is,
    before the decode and after it. *)
Theorem other_function_calls_dropped :
  (forall fc w,
     is_updateClarity fc = false -> handleFunctionCall fc w = ret tt w) /\
  (forall fcs sc w,
     let r := onmessage (tool_frame sc fcs) w in
     let r' := onmessage (tool_frame sc (filter is_updateClarity fcs)) w in
     log r = log r' /\ world r = world r' /\
     option_map (option_map task_ctx) (result r) =
       option_map (option_map task_ctx) (result r') /\
     published (log r) = map fc_args (filter is_updateClarity fcs) /\
     sent is_ack (log r) ++ pending is_ack (world r) =
       pending is_ack w ++ map ack (filter is_updateClarity fcs)) /\
  (forall fcs sc ctx buffer now w,
     onmessage_resume
       {| task_msg := tool_frame sc fcs; task_ctx := ctx |} buffer now w =
     onmessage_resume
       {| task_msg := tool_frame sc (filter is_updateClarity fcs);
          task_ctx := ctx |} buffer now w).
Proof.
  split; [|split].
  - intros fc w H. unfold handleFunctionCall. now rewrite H.
  - intros fcs sc w. cbv zeta.
    destruct (onmessage_acks (tool_frame sc fcs) w) as [Hs Hp].
    cbn [invocations tool_frame toolCall functionCalls] in Hs, Hp.
    repeat split; trivial.
    all: apply (onmessage_ext (tool_frame sc fcs)
                  (tool_frame sc (filter is_updateClarity fcs)) w);
      trivial; intro w0; rewrite !handleToolCall_eq;
      cbn [invocations tool_frame toolCall functionCalls];
      now rewrite filter_idem.
  - intros. unfold onmessage_resume, handleTranscription. reflexivity.
Qed.

Lemma other_function_calls_witness :
  is_updateClarity theme_call = false /\
  handleFunctionCall theme_call connected_world = ret tt connected_world.
Proof.
  split; [reflexivity|].
  apply (proj1 other_function_calls_dropped); reflexivity.
Defined.

(** ** Audio of a frame *)

Lemma no_playback_refl (w : World) : no_playback w w [].
Proof. now repeat split. Qed.

Lemma no_playback_trans (w1 w2 w3 : World) (l1 l2 : list Effect) :
  no_playback w1 w2 l1 -> no_playback w2 w3 l2 ->
  no_playback w1 w3 (l1 ++ l2).
Proof.
  unfold no_playback. intros (F1 & N1 & S1 & P1) (F2 & N2 & S2 & P2).
  rewrite filter_app, F1, F2. repeat split; congruence.
Qed.

Ltac no_playback_leaf :=
  let w := fresh "w" in
  intro w; destruct w;
  unfold no_playback, emit, modify, new_object, stop, run_microtasks;
  cbn [world log result]; cbn; auto.

Ltac no_playback_tac :=
  respects_with no_playback_refl no_playback_trans fail no_playback_leaf.

Lemma handleToolCall_no_playback msg :
  respects no_playback (handleToolCall msg).
Proof. no_playback_tac. Qed.

Lemma handleTranscription_no_playback msg :
  respects no_playback (handleTranscription msg).
Proof. no_playback_tac. Qed.

(** A frame with no audio in its first part is handled to its end at
    once, with no decode and no playback. *)
Lemma onmessage_without_audio (msg : LiveServerMessage) (w : World) :
  audioData msg = None ->
  no_playback w (world (onmessage msg w)) (log (onmessage msg w)) /\
  (forall t, result (onmessage msg w) <> Some (Some t)).
Proof.
  intros Ha.
  change (onmessage msg) with (handleToolCall msg ;; onmessage_rest msg).
  assert (Hrest : forall w0,
            onmessage_rest msg w0 = (handleTranscription msg ;; ret None) w0).
  { intro w0. unfold onmessage_rest. rewrite Ha, bind_eq.
    cbn [gets result world log app].
    now destruct ((handleTranscription msg ;; ret None) w0). }
  split.
  - rewrite bind_eq.
    pose proof (handleToolCall_no_playback msg w) as H1.
    destruct (result (handleToolCall msg w)); cbn [world log]; trivial.
    eapply no_playback_trans; [exact H1|].
    rewrite Hrest, bind_eq.
    pose proof (handleTranscription_no_playback msg
                  (world (handleToolCall msg w))) as H2.
    destruct (result (handleTranscription msg _)); cbn [ret world log];
      rewrite ?app_nil_r; exact H2.
  - intros t. rewrite bind_eq.
    destruct (result (handleToolCall msg w)); cbn [result]; [|discriminate].
    rewrite Hrest, bind_eq.
    destruct (result (handleTranscription msg _)); cbn [ret result];
      discriminate.
Qed.

(** C9: the audio of a frame is looked for in the first part of the
    model turn only.  Two frames that differ in the parts after the
    first one are handled alike, before the decode and after it, so
    what those parts carry is neither decoded nor scheduled; and a frame
    whose first part has no inline data starts no decode, schedules no
    playback and leaves the cursor, the sources and the decodes under
    way as they are. *)
Theorem audio_from_first_part_only :
  (forall tc done it ot p rest rest' w,
     let msg := parts_frame tc done it ot (p :: rest) in
     let msg' := parts_frame tc done it ot (p :: rest') in
     audioData msg =
       match inlineData p with Some b => blob_data b | None => None end /\
     audioData msg = audioData msg' /\
     log (onmessage msg w) = log (onmessage msg' w) /\
     world (onmessage msg w) = world (onmessage msg' w) /\
     option_map (option_map task_ctx) (result (onmessage msg w)) =
       option_map (option_map task_ctx) (result (onmessage msg' w)) /\
     forall ctx buffer now w0,
       onmessage_resume {| task_msg := msg; task_ctx := ctx |} buffer now w0 =
       onmessage_resume {| task_msg := msg'; task_ctx := ctx |} buffer now w0) /\
  (forall msg sc mt p rest w,
     serverContent msg = Some sc -> modelTurn sc = Some mt ->
     parts mt = Some (p :: rest) -> inlineData p = None ->
     audioData msg = None /\
     no_playback w (world (onmessage msg w)) (log (onmessage msg w)) /\
     (forall t, result (onmessage msg w) <> Some (Some t)) /\
     no_playback w (world (handle (EvMessage msg) w))
       (log (handle (EvMessage msg) w))).
Proof.
  split.
  - intros tc done it ot p rest rest' w. cbv zeta.
    split; [reflexivity|]. split; [reflexivity|].
    destruct (onmessage_ext (parts_frame tc done it ot (p :: rest))
                (parts_frame tc done it ot (p :: rest')) w)
      as (Hl & Hw & Hr); try reflexivity.
    repeat split; trivial.
  - intros msg sc mt p rest w Hsc Hmt Hps Hin.
    assert (Ha : audioData msg = None).
    { unfold audioData. rewrite Hsc, Hmt, Hps. cbn [nth_error].
      now rewrite Hin. }
    destruct (onmessage_without_audio msg w Ha) as [Hn Hr].
    repeat split; trivial; try apply Hn.
    all: cbn [handle]; rewrite bind_eq;
      destruct (result (onmessage msg w)) as [[t|]|] eqn:E;
      [now elim (Hr t)| |]; cbn [ret world log]; rewrite ?app_nil_r;
      apply Hn.
Qed.

Lemma audio_from_first_part_witness :
  (serverContent (parts_frame None None None None [text_part; audio_part]) =
     Some (turn_of [text_part; audio_part]) /\
   modelTurn (turn_of [text_part; audio_part]) =
     Some {| parts := Some [text_part; audio_part] |} /\
   parts {| parts := Some [text_part; audio_part] |} =
     Some [text_part; audio_part] /\
   inlineData text_part = None) /\
  outputAudioContextRef connected_world = Some 1%nat /\
  audioData (parts_frame None None None None [text_part; audio_part]) = None /\
  filter is_playback
    (log (onmessage (parts_frame None None None None [text_part; audio_part])
            connected_world)) = [].
Proof.
  split; [repeat split|]. split; [reflexivity|].
  refine ((fun H => conj (proj1 H) (proj1 (proj1 (proj2 H))))
            (proj2 audio_from_first_part_only
               (parts_frame None None None None [text_part; audio_part])
               (turn_of [text_part; audio_part])
               {| parts := Some [text_part; audio_part] |}
               text_part [audio_part] connected_world
               eq_refl eq_refl eq_refl eq_refl)).
Defined.

(** ** Transcripts *)

(** Transcription handling in one step. *)
Lemma handleTranscription_eq (msg : LiveServerMessage) (w : World) :
  handleTranscription msg w =
  let i := currentInputTranscription w ++ fragment (inputText msg) in
  let o := currentOutputTranscription w ++ fragment (outputText msg) in
  if isTurnComplete msg then
    {| result := Some tt;
       world := set_currentOutputTranscription (kept o)
                  (set_currentInputTranscription (kept i) w);
       log := flush i o |}
  else
    {| result := Some tt;
       world := set_currentOutputTranscription o
                  (set_currentInputTranscription i w);
       log := [] |}.
Proof.
  unfold handleTranscription, flush, kept, fragment. destruct w.
  destruct (inputText msg) as [[|a ta]|], (outputText msg) as [[|b tb]|],
    (isTurnComplete msg);
    unfold bind, gets, modify, ret, emit, when; cbn -[trim];
    rewrite ?app_nil_r;
    repeat match goal with
      | |- context [truthy (trim ?s)] => destruct (truthy (trim s)); cbn -[trim]
      end; reflexivity.
Qed.

Lemma transcripts_app (l1 l2 : list Effect) :
  transcripts (l1 ++ l2) = transcripts l1 ++ transcripts l2.
Proof. apply flat_map_app. Qed.

Lemma transcripts_publications (l : list FunctionCall) :
  transcripts (map (fun fc => onClarityUpdate (fc_args fc)) l) = [].
Proof. induction l; cbn; trivial. Qed.






(** A fragment that comes with audio waits for the decode: a fragment
    of a later frame can get into the accumulator before it. *)
Example fragments_reordered_by_decode :
  let first :=
    parts_frame None None (Some {| tr_text := Some (lit "a") |}) None
      [audio_part] in
  transcripts
    (snd (run [EvMessage first; EvMessage (user_fragment (lit "b"));
               EvDecoded 0 (Some half_second) 0; EvMessage turn_boundary]
              connected_world)) = [(lit "ba", user)].
Proof. reflexivity. Qed.

(** ** Frame sampling *)






Lemma sampling_session_send (l : list Outbound) :
  filter is_sampling (map session_send l) = [].
Proof. induction l; cbn; trivial. Qed.








(** With video, the timer samples while the toggle is off and stops
    when it is set. *)
Example sampling_follows_toggle :
  filter is_sampling
    (snd (run [EvTick true (lit "frame")] connected_world))
    = [canvas_drawImage] /\
  filter is_sampling
    (snd (run [EvSetIsAudioOnly true; EvTick true (lit "frame")]
              connected_world)) = [].
Proof. split; reflexivity. Qed.

(** ** The playback schedule *)

Lemma duration_nonneg (b : AudioBuffer) : 0 <= duration b.
Proof.
  unfold duration, Qle. cbn. rewrite Z.mul_1_r. apply N2Z.is_nonneg.
Qed.

Lemma scheduled_app (l1 l2 : list Effect) :
  scheduled (l1 ++ l2) = scheduled l1 ++ scheduled l2.
Proof. apply flat_map_app. Qed.

Lemma chained_weaken (lo lo' hi : Q) (s : list (Q * Q)) :
  lo' <= lo -> chained lo s hi -> chained lo' s hi.
Proof.
  destruct s as [|[t d] r]; cbn [chained].
  - intros. eapply Qle_trans; eassumption.
  - intros H (H1 & H2 & H3). repeat split; trivial.
    eapply Qle_trans; eassumption.
Qed.

Lemma chained_app (a b c : Q) (s s' : list (Q * Q)) :
  chained a s b -> chained b s' c -> chained a (s ++ s') c.
Proof.
  revert a. induction s as [|[t d] r IH]; intros a; cbn [chained app].
  - intros. eapply chained_weaken; eassumption.
  - intros (H1 & H2 & H3) H. repeat split; auto.
Qed.

Lemma chained_le (lo hi : Q) (s : list (Q * Q)) :
  chained lo s hi -> lo <= hi.
Proof.
  revert lo. induction s as [|[t d] r IH]; intros lo; cbn [chained]; trivial.
  intros (H1 & H2 & H3). apply IH in H3.
  apply Qle_trans with t; trivial. apply Qle_trans with (t + d); trivial.
  rewrite <- (Qplus_0_r t) at 1. apply Qplus_le_r. exact H2.
Qed.

Lemma chained_bounds (lo hi : Q) (s : list (Q * Q)) :
  chained lo s hi ->
  Forall (fun td => lo <= fst td /\ fst td + snd td <= hi) s.
Proof.
  revert lo. induction s as [|[t d] r IH]; intros lo; cbn [chained].
  - constructor.
  - intros (H1 & H2 & H3). constructor.
    + cbn [fst snd]. split; trivial. now apply chained_le in H3.
    + apply IH in H3. eapply Forall_impl; [|exact H3].
      cbn beta. intros [t' d'] [Ha Hb]. cbn [fst snd] in *. split; trivial.
      apply Qle_trans with t; trivial. apply Qle_trans with (t + d); trivial.
      rewrite <- (Qplus_0_r t) at 1. apply Qplus_le_r. exact H2.
Qed.

Lemma chained_back_to_back (lo hi : Q) (s : list (Q * Q)) :
  chained lo s hi -> back_to_back s.
Proof.
  revert lo. induction s as [|[t d] r IH]; intros lo; cbn [chained back_to_back];
    trivial.
  intros (H1 & H2 & H3). split; [|now apply IH in H3].
  destruct r as [|[t2 d2] r']; trivial. now destruct H3.
Qed.

Lemma chained_sorted (lo hi : Q) (s : list (Q * Q)) :
  chained lo s hi -> StronglySorted Qle (map fst s).
Proof.
  revert lo. induction s as [|[t d] r IH]; intros lo; cbn [chained map].
  - constructor.
  - intros (H1 & H2 & H3). constructor; [now apply IH in H3|].
    apply chained_bounds in H3. rewrite Forall_map.
    eapply Forall_impl; [|exact H3]. cbn beta. intros td [Ha _].
    cbn [fst]. apply Qle_trans with (t + d); trivial.
    rewrite <- (Qplus_0_r t) at 1. apply Qplus_le_r. exact H2.
Qed.

Lemma on_schedule_refl (w : World) : on_schedule w w [].
Proof. apply Qle_refl. Qed.

Lemma on_schedule_trans (w1 w2 w3 : World) (l1 l2 : list Effect) :
  on_schedule w1 w2 l1 -> on_schedule w2 w3 l2 ->
  on_schedule w1 w3 (l1 ++ l2).
Proof.
  unfold on_schedule. rewrite scheduled_app. apply chained_app.
Qed.

(** Scheduling in one step. *)
Lemma schedule_eq (ctx : AudioContext) (b : AudioBuffer) (now : Q) (w : World) :
  let r := schedule ctx b now w in
  let startAt := Qmax (nextStartTimeRef w) now in
  result r = Some tt /\
  log r = [createBufferSource ctx (fresh w);
           source_start (fresh w) ctx b startAt] /\
  nextStartTimeRef (world r) = startAt + duration b /\
  In (fresh w) (sourceNodesRef (world r)).
Proof.
  destruct w. cbv zeta.
  unfold schedule, bind, gets, modify, emit, new_object.
  cbn -[Qmax Qplus duration in_dec]. repeat split.
  destruct (in_dec Nat.eq_dec fresh0 sourceNodesRef0); trivial.
  apply in_or_app. right. now left.
Qed.

Lemma schedule_on_schedule ctx b now :
  respects on_schedule (schedule ctx b now).
Proof.
  intros w. unfold on_schedule.
  destruct (schedule_eq ctx b now w) as (_ & Hl & Hn & _).
  rewrite Hl, Hn. cbn [scheduled flat_map app chained].
  repeat split.
  - apply Q.le_max_l.
  - apply duration_nonneg.
  - apply Qle_refl.
Qed.

Ltac on_schedule_leaf :=
  let w := fresh "w" in
  intro w; destruct w;
  unfold on_schedule, emit, modify, new_object, stop;
  cbn [world log result];
  cbn -[Qle Qmax Qplus duration in_dec];
  try apply Qle_refl.

Lemma scheduled_session_send (l : list Outbound) :
  scheduled (map session_send l) = [].
Proof. induction l; cbn; trivial. Qed.

Lemma run_microtasks_on_schedule : respects on_schedule run_microtasks.
Proof.
  intro w. destruct w. unfold on_schedule, run_microtasks.
  cbn [world log]. rewrite scheduled_session_send. apply Qle_refl.
Qed.

Ltac on_schedule_tac :=
  respects_with on_schedule_refl on_schedule_trans
    ltac:(first [ apply schedule_on_schedule
                | apply run_microtasks_on_schedule ])
    on_schedule_leaf.

Lemma handle_on_schedule (e : Event) :
  starts_session e = false -> respects on_schedule (handle e).
Proof.
  intros He. destruct e; cbn [handle];
    try solve [on_schedule_tac].
  (* connect without a key *)
  cbn [starts_session] in He. intro w. rewrite bind_eq.
  rewrite (@connect_falsy apiKey w He).
  cbn [result world log ret]. apply on_schedule_refl.
Qed.

Lemma run_on_schedule (es : list Event) (w : World) :
  forallb (fun e => negb (starts_session e)) es = true ->
  on_schedule w (fst (run es w)) (snd (run es w)).
Proof.
  apply (respects_run on_schedule_refl on_schedule_trans
           (fun e => negb (starts_session e))).
  intros e He. apply handle_on_schedule. now apply negb_true_iff.
Qed.

(** C1: a decoded buffer is started at the larger of the cursor
    [nextStartTimeRef] and the clock of its context, and the cursor moves
    to that time plus the duration of the buffer.  So, over any run of
    a session (any events, in any order, up to the next [connect] with
    a key), in the order in which the buffers are enqueued: each buffer
    starts no earlier than the end of the one before, the start times
    never decrease, every buffer lies between the cursor at the start
    and the cursor at the end, and the cursor never moves back. *)
Theorem playback_schedule_monotone :
  (forall ctx b now w,
     let r := schedule ctx b now w in
     let startAt := Qmax (nextStartTimeRef w) now in
     result r = Some tt /\
     log r = [createBufferSource ctx (fresh w);
              source_start (fresh w) ctx b startAt] /\
     nextStartTimeRef (world r) = startAt + duration b /\
     In (fresh w) (sourceNodesRef (world r))) /\
  (forall es w,
     forallb (fun e => negb (starts_session e)) es = true ->
     let r := run es w in
     back_to_back (scheduled (snd r)) /\
     StronglySorted Qle (map fst (scheduled (snd r))) /\
     Forall (fun td => nextStartTimeRef w <= fst td /\
                       fst td + snd td <= nextStartTimeRef (fst r))
            (scheduled (snd r)) /\
     nextStartTimeRef w <= nextStartTimeRef (fst r)) /\
  (forall es1 es2 w,
     forallb (fun e => negb (starts_session e)) (es1 ++ es2) = true ->
     nextStartTimeRef (fst (run es1 w)) <=
     nextStartTimeRef (fst (run (es1 ++ es2) w))).
Proof.
  split; [exact schedule_eq|]. split.
  - intros es w Hes. cbv zeta. pose proof (run_on_schedule es w Hes) as H.
    unfold on_schedule in H. repeat split.
    + eapply chained_back_to_back, H.
    + eapply chained_sorted, H.
    + apply chained_bounds, H.
    + eapply chained_le, H.
  - intros es1 es2 w Hes. rewrite forallb_app in Hes.
    apply andb_prop in Hes as [_ H2]. rewrite run_app. cbn [fst].
    eapply chained_le. apply (run_on_schedule es2 _ H2).
Qed.

(** The scenario of the specification: a buffer of half a second at
    clock 0, then one of three tenths of a second. *)
Lemma playback_schedule_witness :
  forallb (fun e => negb (starts_session e))
    [EvMessage audio_frame; EvDecoded 0 (Some half_second) 0;
     EvMessage audio_frame; EvDecoded 0 (Some three_tenths) (1 # 10)] = true /\
  scheduled
    (snd (run [EvMessage audio_frame; EvDecoded 0 (Some half_second) 0;
               EvMessage audio_frame;
               EvDecoded 0 (Some three_tenths) (1 # 10)]
              connected_world)) =
    [(0, 12000 # 24000); (12000 # 24000, 7200 # 24000)] /\
  back_to_back
    (scheduled
       (snd (run [EvMessage audio_frame; EvDecoded 0 (Some half_second) 0;
                  EvMessage audio_frame;
                  EvDecoded 0 (Some three_tenths) (1 # 10)]
                 connected_world))).
Proof.
  split; [reflexivity|]. split; [reflexivity|].
  apply (proj1 (proj2 playback_schedule_monotone)
           [EvMessage audio_frame; EvDecoded 0 (Some half_second) 0;
            EvMessage audio_frame; EvDecoded 0 (Some three_tenths) (1 # 10)]
           connected_world).
  reflexivity.
Defined.

(** Buffers are enqueued as their decodes end: here the second frame is
    decoded first and plays first, and the two are still back to back. *)
Example decodes_enqueue_in_completion_order :
  scheduled
    (snd (run [EvMessage audio_frame; EvMessage audio_frame;
               EvDecoded 1 (Some three_tenths) 0;
               EvDecoded 0 (Some half_second) 0]
              connected_world)) =
    [(0, 7200 # 24000); (7200 # 24000, 12000 # 24000)].
Proof. reflexivity. Qed.

(** ** A decode that ends after the teardown *)

(** [onmessage] is suspended only on the output context it found. *)
Lemma onmessage_suspended (msg : LiveServerMessage) (w : World)
    (t : DecodeTask) :
  result (onmessage msg w) = Some (Some t) ->
  outputAudioContextRef w = Some (task_ctx t) /\
  outputAudioContextRef (world (onmessage msg w)) = Some (task_ctx t) /\
  task_msg t = msg.
Proof.
  change (onmessage msg) with (handleToolCall msg ;; onmessage_rest msg).
  rewrite bind_eq, handleToolCall_eq.
  destruct (toolCall msg) as [[[fcs|]]|]; cbn [result world log];
    try discriminate.
  all: unfold onmessage_rest; rewrite bind_eq; cbn [gets result world log];
    destruct w; cbn [set_microtasks outputAudioContextRef microtasks];
    destruct (audioData msg) as [d|];
    [destruct outputAudioContextRef0 as [ctx|]; [destruct (truthy d)|]|];
    rewrite bind_eq; cbn [emit ret result world log];
    try (destruct (result (handleTranscription msg _)); cbn [result];
         discriminate);
    intros [= <-]; cbn; auto.
Qed.

(** C3: when [disconnect] has run to its end while a decode was under
    way, the continuation of [onmessage] does not look at the output
    context again: it creates a source on the context it captured, which
    [disconnect] has closed, starts it, moves the cursor and puts the
    source in the set that [disconnect] had emptied. *)
Theorem late_decode_schedules_on_closed_context
    (msg : LiveServerMessage) (w : World) (t : DecodeTask)
    (b : AudioBuffer) (now : Q) :
  result (onmessage msg w) = Some (Some t) ->
  let torn := disconnect (world (onmessage msg w)) in
  let r := onmessage_resume t (Some b) now (world torn) in
  In (context_close (task_ctx t)) (log torn) /\
  outputAudioContextRef (world torn) = None /\
  sourceNodesRef (world torn) = [] /\
  In (source_start (fresh (world torn)) (task_ctx t) b
        (Qmax (nextStartTimeRef (world torn)) now)) (log r) /\
  In (fresh (world torn)) (sourceNodesRef (world r)).
Proof.
  intros Hs. cbv zeta.
  destruct (onmessage_suspended msg w Hs) as (_ & Hoc & _).
  rewrite disconnect_eq. cbn [world log].
  set (w1 := world (onmessage msg w)) in *.
  assert (Hclosed : In (context_close (task_ctx t)) (teardown_log w1)).
  { unfold teardown_log. rewrite Hoc.
    do 3 (apply in_or_app; right). apply in_or_app. left.
    apply in_or_app. right. now left. }
  assert (Hnone : outputAudioContextRef (torn_down w1) = None)
    by apply torn_down_released.
  assert (Hempty : sourceNodesRef (torn_down w1) = []).
  { destruct w1. cbn in Hoc. unfold torn_down. cbn. now rewrite Hoc. }
  repeat split; trivial.
  - unfold onmessage_resume. rewrite bind_eq.
    destruct (schedule_eq (task_ctx t) b now (torn_down w1))
      as (Hr & Hl & _). rewrite Hr, Hl. cbn [log].
    right. now left.
  - unfold onmessage_resume. rewrite bind_eq.
    destruct (schedule_eq (task_ctx t) b now (torn_down w1))
      as (Hr & _ & _ & Hin). rewrite Hr. cbn [world].
    rewrite handleTranscription_eq. cbv zeta.
    destruct (world (schedule (task_ctx t) b now (torn_down w1))).
    cbn in Hin. destruct (isTurnComplete (task_msg t)); exact Hin.
Qed.

Lemma late_decode_witness :
  result (onmessage audio_frame connected_world) =
    Some (Some {| task_msg := audio_frame; task_ctx := 1%nat |}) /\
  In (context_close 1%nat)
     (log (disconnect (world (onmessage audio_frame connected_world)))) /\
  In (source_start 5%nat 1%nat half_second 5)
     (log (onmessage_resume {| task_msg := audio_frame; task_ctx := 1%nat |}
             (Some half_second) 5
             (world (disconnect
                       (world (onmessage audio_frame connected_world)))))).
Proof.
  split; [reflexivity|].
  refine ((fun H => conj (proj1 H) (proj1 (proj2 (proj2 (proj2 H)))))
            (@late_decode_schedules_on_closed_context audio_frame
               connected_world
               {| task_msg := audio_frame; task_ctx := 1%nat |}
               half_second 5 eq_refl)).
Defined.

(** The same as a run: the frame arrives, the hook disconnects, the
    decode ends. *)
Example late_decode_run :
  snd (run [EvMessage audio_frame; EvDisconnect;
            EvDecoded 0 (Some half_second) 5] connected_world) =
    [decodeAudioData (lit "UklGRg==") 1%nat;
     track_stop microphone; track_stop camera; clearInterval 5%positive;
     context_close 0%nat; context_close 1%nat;
     setConnectionState DISCONNECTED;
     createBufferSource 1%nat 5%nat;
     source_start 5%nat 1%nat half_second 5] /\
  sourceNodesRef
    (fst (run [EvMessage audio_frame; EvDisconnect;
               EvDecoded 0 (Some half_second) 5] connected_world)) = [5%nat].
Proof. split; reflexivity. Qed.

(** * Further properties of the hook *)

(** Settles a primitive step for a relation on fields and on what is
    queued; [unf] unfolds the relation. *)
Ltac frame_leaf unf :=
  let w := fresh "w" in
  intro w; destruct w; unf;
  unfold pending, schedule, bind, gets, ret, emit, modify, new_object,
    stop, run_microtasks;
  cbn [world log result];
  rewrite ?sent_session_send, ?sampling_session_send;
  cbn -[Qmax Qplus duration in_dec];
  rewrite ?filter_app; cbn -[Qmax Qplus duration in_dec];
  rewrite ?app_nil_r; auto.

(** ** Text sent without a channel *)

Lemma no_text_refl (w : World) : no_text w w [].
Proof. unfold no_text. auto. Qed.

Lemma no_text_trans (w1 w2 w3 : World) (l1 l2 : list Effect) :
  no_text w1 w2 l1 -> no_text w2 w3 l2 -> no_text w1 w3 (l1 ++ l2).
Proof.
  unfold no_text. intros (V1 & S1) (V2 & S2). split.
  - destruct V2 as [V2|V2]; [rewrite V2; exact V1 | now right].
  - now rewrite sent_app, <- app_assoc, S2.
Qed.

Lemma text_dropped_refl (w : World) : text_dropped w w [].
Proof. unfold text_dropped. auto. Qed.

Lemma text_dropped_trans (w1 w2 w3 : World) (l1 l2 : list Effect) :
  text_dropped w1 w2 l1 -> text_dropped w2 w3 l2 ->
  text_dropped w1 w3 (l1 ++ l2).
Proof.
  unfold text_dropped. intros H1 H2 Hs.
  destruct (H1 Hs) as (V1 & S1). destruct (H2 V1) as (V2 & S2).
  split; trivial. now rewrite sent_app, <- app_assoc, S2.
Qed.

Lemma no_text_dropped (w w' : World) (l : list Effect) :
  no_text w w' l -> text_dropped w w' l.
Proof.
  intros (V & S) Hs. split; trivial. destruct V; congruence.
Qed.

Ltac no_text_tac :=
  respects_with no_text_refl no_text_trans fail
    ltac:(frame_leaf ltac:(unfold no_text)).

Lemma handle_no_text (e : Event) :
  match e with
  | EvUserMedia (Some _) | EvSendText _ => False
  | _ => True
  end ->
  respects no_text (handle e).
Proof.
  destruct e as [| |[s|]| | | | | | | | | | |]; intros He; try elim He;
    cbn [handle connect_resume]; no_text_tac.
Qed.

Lemma sendTextMessage_eq (text : jsstring) (w : World) :
  sendTextMessage text w =
  match sessionRef w with
  | Some _ =>
      {| result := Some tt;
         world := set_microtasks
                    (microtasks w ++ [sendRealtimeInput_text text]) w;
         log := [] |}
  | None => ret tt w
  end.
Proof.
  unfold sendTextMessage. rewrite bind_eq. cbn [gets result world log].
  destruct (sessionRef w); reflexivity.
Qed.

Lemma handle_text_dropped (e : Event) :
  offers_stream e = false -> respects text_dropped (handle e).
Proof.
  intros He w.
  destruct e as [| |[s|]| | | | | | | | | | |]; try discriminate He;
    try (apply no_text_dropped, handle_no_text; exact I).
  intros Hs. cbn [handle]. rewrite sendTextMessage_eq, Hs.
  cbn [ret world log]. auto.
Qed.

(** X1: a text message is handed to the session only while the hook
    holds a channel; otherwise [sendTextMessage] does nothing at all.
    After [disconnect], whatever happens next, no text goes out until
    [getUserMedia] gives a stream to a [connect] and a channel is
    opened again. *)
Theorem text_needs_channel :
  (forall text w, sessionRef w = None -> sendTextMessage text w = ret tt w) /\
  (forall text w p,
     sessionRef w = Some p ->
     sendTextMessage text w =
       {| result := Some tt;
          world := set_microtasks
                     (microtasks w ++ [sendRealtimeInput_text text]) w;
          log := [] |}) /\
  (forall es w,
     forallb (fun e => negb (offers_stream e)) es = true ->
     let r := run es (world (disconnect w)) in
     sessionRef (fst r) = None /\
     sent is_text (snd r) ++ pending is_text (fst r) = pending is_text w).
Proof.
  split; [|split].
  - intros text w H. now rewrite sendTextMessage_eq, H.
  - intros text w p H. now rewrite sendTextMessage_eq, H.
  - intros es w Hes. cbv zeta.
    pose proof (respects_run text_dropped_refl text_dropped_trans
                  (fun e => negb (offers_stream e))
                  (fun e He => handle_text_dropped e
                     (proj1 (negb_true_iff _) He))
                  es (world (disconnect w)) Hes) as H.
    rewrite disconnect_eq in *. cbn [world] in *.
    destruct (H (proj2 (proj2 (proj2 (proj2 (proj2 (torn_down_released w)))))))
      as [Hs Hp].
    split; trivial. rewrite Hp. now destruct w.
Qed.

Lemma text_needs_channel_witness :
  (sessionRef (init_world calm) = None /\
   sendTextMessage (lit "hint") (init_world calm) = ret tt (init_world calm)) /\
  (sessionRef connected_world = Some 2%nat /\
   microtasks (world (sendTextMessage (lit "hint") connected_world)) =
     [sendRealtimeInput_text (lit "hint")]) /\
  (forallb (fun e => negb (offers_stream e))
     [EvSendText (lit "hint"); EvOpen; EvSendText (lit "again");
      EvMicrotasks] = true /\
   sent is_text
     (snd (run [EvSendText (lit "hint"); EvOpen; EvSendText (lit "again");
                EvMicrotasks]
               (world (disconnect connected_world)))) = []).
Proof.
  split; [|split].
  - split; [reflexivity|].
    apply (proj1 text_needs_channel); reflexivity.
  - split; [reflexivity|].
    rewrite (proj1 (proj2 text_needs_channel) (lit "hint") connected_world
               2%nat eq_refl).
    reflexivity.
  - split; [reflexivity|].
    pose proof (proj2 (proj2 text_needs_channel)
                  [EvSendText (lit "hint"); EvOpen; EvSendText (lit "again");
                   EvMicrotasks] connected_world eq_refl) as H.
    cbv zeta in H. destruct H as [_ H].
    apply app_eq_nil in H. exact (proj1 H).
Defined.

(** ** The ways [connect] can go *)

(** [connect] with a key, in one step. *)
Lemma connect_eq (apiKey : jsstring) (w : World) :
  truthy apiKey = true ->
  connect apiKey w =
  {| result := Some true;
     world := set_nextStartTimeRef 0
                (set_outputAudioContextRef (Some (S (fresh w)))
                   (set_fresh (S (S (fresh w)))
                      (set_inputAudioContextRef (Some (fresh w))
                         (set_fresh (S (fresh w))
                            (set_connect_isAudioOnly (isAudioOnly w)
                               (set_connectionState CONNECTING w))))));
     log := [setConnectionState CONNECTING;
             new_AudioContext (fresh w) 16000;
             new_AudioContext (S (fresh w)) 24000;
             getUserMedia (negb (isAudioOnly w))] |}.
Proof.
  intros Hk. unfold connect. rewrite Hk. destruct w.
  unfold bind, setState, emit, modify, gets, new_object, ret. reflexivity.
Qed.

(** X2: when [getUserMedia] rejects, the [catch] block of [connect]
    logs the error, sets the state to [ERROR] and runs [disconnect]:
    the two audio contexts [connect] had created are closed, every
    handle is dropped, no channel is opened, and the state ends as
    [DISCONNECTED]. *)
Theorem media_failure_tears_down (apiKey : jsstring) (w : World) :
  truthy apiKey = true ->
  let started := connect apiKey w in
  let r := connect_resume None (world started) in
  result r = Some tt /\
  (exists rest,
     log r = console_error :: setConnectionState ERROR :: rest /\
     In (context_close (fresh w)) rest /\
     In (context_close (S (fresh w))) rest) /\
  (forall p, ~ In (live_connect p) (log r)) /\
  released (world r) /\
  connectionState (world r) = DISCONNECTED /\
  fst (run [EvConnect apiKey; EvUserMedia None] w) = world r.
Proof.
  intros Hk. cbv zeta. rewrite !run_cons. cbn [run handle fst].
  rewrite bind_eq, (@connect_eq apiKey w Hk). cbn [result world log ret].
  set (w1 := set_nextStartTimeRef _ _).
  unfold connect_resume, setState. rewrite !bind_eq.
  cbn [emit modify result world log app]. rewrite !disconnect_eq.
  cbn [result world log].
  assert (Hi : inputAudioContextRef (set_connectionState ERROR w1)
               = Some (fresh w)) by (subst w1; now destruct w).
  assert (Ho : outputAudioContextRef (set_connectionState ERROR w1)
               = Some (S (fresh w))) by (subst w1; now destruct w).
  repeat split; try apply torn_down_released.
  - eexists. split; [reflexivity|]. unfold teardown_log.
    rewrite Hi, Ho. split.
    + do 2 (apply in_or_app; right). apply in_or_app. left. now left.
    + do 3 (apply in_or_app; right). apply in_or_app. left.
      apply in_or_app. right. now left.
  - intros p [H|[H|H]]; try discriminate. unfold teardown_log in H.
    repeat (apply in_app_or in H; destruct H as [H|H]);
      repeat match goal with
        | H : In _ (match ?x with _ => _ end) |- _ => destruct x
        | H : In _ (map _ _) |- _ =>
            apply in_map_iff in H; destruct H as (? & ? & ?)
        | H : In _ (_ ++ _) |- _ => apply in_app_or in H; destruct H as [H|H]
        | H : In _ (_ :: _) |- _ => destruct H as [H|H]
        | H : In _ [] |- _ => elim H
        end; discriminate.
Qed.

Lemma media_failure_witness :
  truthy (lit "key") = true /\
  connectionState
    (fst (run [EvConnect (lit "key"); EvUserMedia None] (init_world calm)))
    = DISCONNECTED /\
  released
    (fst (run [EvConnect (lit "key"); EvUserMedia None] (init_world calm))).
Proof.
  split; [reflexivity|].
  pose proof (@media_failure_tears_down (lit "key") (init_world calm) eq_refl)
    as H.
  cbv zeta in H. destruct H as (_ & _ & _ & Hr & Hc & Hrun).
  rewrite Hrun. split; assumption.
Defined.

(** X3: [disconnect] does not cancel a [connect] that waits for the
    media stream, nor the opening of the channel.  When the stream
    comes after the teardown, [connect] stores it and opens the
    channel; when the channel opens, [onopen] sets the state to
    [CONNECTED], finds no input context, warns and wires neither the
    audio tap nor the frame timer.  The same happens when the teardown
    comes between the stream and the opening. *)
Theorem teardown_does_not_cancel_connect
    (apiKey : jsstring) (stream : MediaStream) (w : World) :
  truthy apiKey = true ->
  let torn := world (disconnect (world (connect apiKey w))) in
  let resumed := connect_resume (Some stream) torn in
  let opened := onopen (world resumed) in
  let late :=
    onopen (world (disconnect
                     (world (connect_resume (Some stream)
                               (world (connect apiKey w)))))) in
  (log resumed =
     (if videoRef w && negb (isAudioOnly w) then [video_play] else []) ++
     [live_connect (S (S (fresh w)))] /\
   log opened = [console_log; setConnectionState CONNECTED; console_warn] /\
   connectionState (world opened) = CONNECTED /\
   mediaStreamRef (world opened) = Some stream /\
   sessionRef (world opened) = Some (S (S (fresh w))) /\
   inputAudioContextRef (world opened) = None /\
   outputAudioContextRef (world opened) = None /\
   videoIntervalRef (world opened) = None /\
   audioProcessorRef (world opened) = audioProcessorRef w) /\
  (log late = [console_log; setConnectionState CONNECTED; console_warn] /\
   connectionState (world late) = CONNECTED /\
   released (world late) /\
   audioProcessorRef (world late) = audioProcessorRef w) /\
  fst (run [EvConnect apiKey; EvDisconnect; EvUserMedia (Some stream); EvOpen]
           w) = world opened /\
  fst (run [EvConnect apiKey; EvUserMedia (Some stream); EvDisconnect; EvOpen]
           w) = world late.
Proof.
  intros Hk. cbv zeta. rewrite !run_cons. cbn [run handle fst snd].
  rewrite !bind_eq, (@connect_eq apiKey w Hk). cbn [result world log ret].
  rewrite !disconnect_eq. cbn [result world log].
  destruct w. unfold torn_down, connect_resume, onopen, setState, when.
  unfold bind, gets, modify, emit, new_object, ret. cbn.
  rewrite ?disconnect_eq. unfold released, torn_down.
  destruct videoRef0, isAudioOnly0; cbn; repeat split; reflexivity.
Qed.

Lemma teardown_does_not_cancel_witness :
  truthy (lit "key") = true /\
  connectionState
    (fst (run [EvConnect (lit "key"); EvDisconnect;
               EvUserMedia (Some [microphone; camera]); EvOpen]
              (init_world calm))) = CONNECTED /\
  inputAudioContextRef
    (fst (run [EvConnect (lit "key"); EvDisconnect;
               EvUserMedia (Some [microphone; camera]); EvOpen]
              (init_world calm))) = None.
Proof.
  split; [reflexivity|].
  pose proof (@teardown_does_not_cancel_connect (lit "key")
                [microphone; camera] (init_world calm) eq_refl) as H.
  cbv zeta in H. destruct H as (He & _ & Hrun & _).
  destruct He as (_ & _ & Hc & _ & _ & Hi & _).
  split.
  - exact (eq_trans (f_equal connectionState Hrun) Hc).
  - exact (eq_trans (f_equal inputAudioContextRef Hrun) Hi).
Defined.

(** ** The capture after a teardown *)











(** ** The sources a teardown stops *)

Lemma In_teardown_stop (n : AudioBufferSourceNode) (w : World) :
  In (source_stop n) (teardown_log w) <->
  outputAudioContextRef w <> None /\ In n (sourceNodesRef w).
Proof.
  unfold teardown_log. split.
  - intros H.
    repeat (apply in_app_or in H; destruct H as [H|H]);
      repeat match goal with
        | H : In _ (match ?x with _ => _ end) |- _ => destruct x eqn:?
        | H : In _ (_ ++ _) |- _ => apply in_app_or in H; destruct H as [H|H]
        | H : In _ (map track_stop _) |- _ =>
            apply in_map_iff in H; destruct H as (? & ? & ?)
        | H : In _ (_ :: _) |- _ => destruct H as [H|H]
        | H : In _ [] |- _ => elim H
        end; try discriminate.
    apply in_map_iff in H. destruct H as (m & [= ->] & Hm).
    split; [discriminate | exact Hm].
  - intros [Hc Hn]. destruct (outputAudioContextRef w) as [c|];
      [|now elim Hc].
    do 3 (apply in_or_app; right). apply in_or_app. left.
    apply in_or_app. left. now apply in_map.
Qed.

(** X5: [disconnect] calls [stop] on the sources that are in the set
    when it runs, and on no other, provided the output context is
    there; a source whose [onended] has fired has left the set, the
    others staying, so it is not stopped again at teardown. *)
Theorem teardown_stops_the_sources_left :
  (forall n w,
     In (source_stop n) (log (disconnect w)) <->
     outputAudioContextRef w <> None /\ In n (sourceNodesRef w)) /\
  (forall n w,
     ~ In n (sourceNodesRef (world (onended n w))) /\
     (forall m, m <> n ->
        (In m (sourceNodesRef (world (onended n w))) <->
         In m (sourceNodesRef w))) /\
     ~ In (source_stop n) (log (disconnect (world (onended n w))))).
Proof.
  split.
  - intros n w. rewrite disconnect_eq. cbn [log]. apply In_teardown_stop.
  - intros n w.
    assert (Hs : sourceNodesRef (world (onended n w)) =
                 filter (fun m => negb (Nat.eqb m n)) (sourceNodesRef w))
      by now destruct w.
    assert (Hn : ~ In n (sourceNodesRef (world (onended n w)))).
    { rewrite Hs, filter_In, Nat.eqb_refl. now intros [_ H]. }
    repeat split.
    + exact Hn.
    + rewrite Hs, filter_In. now intros [Hm _].
    + intros Hm. rewrite Hs, filter_In. split; trivial.
      apply negb_true_iff, Nat.eqb_neq. exact H.
    + rewrite disconnect_eq. cbn [log]. rewrite In_teardown_stop.
      now intros [_ H'].
Qed.

(** Two buffers are playing; the first ends; the teardown stops the
    second only. *)
Example teardown_after_one_ended :
  filter (fun e => match e with source_stop _ => true | _ => false end)
    (snd (run [EvMessage audio_frame; EvDecoded 0 (Some half_second) 0;
               EvMessage audio_frame; EvDecoded 0 (Some three_tenths) 0;
               EvEnded 5%nat; EvDisconnect] connected_world))
  = [source_stop 6%nat].
Proof. reflexivity. Qed.

Lemma teardown_stops_witness :
  6%nat <> 5%nat /\
  sourceNodesRef playing_world = [5%nat; 6%nat] /\
  (In 6%nat (sourceNodesRef (world (onended 5%nat playing_world))) <->
   In 6%nat (sourceNodesRef playing_world)).
Proof.
  split; [discriminate|]. split; [reflexivity|].
  apply (proj1 (proj2 (proj2 teardown_stops_the_sources_left 5%nat
                         playing_world))).
  discriminate.
Defined.

(** ** Playback without gaps *)














(** ** The order of what goes out *)









(** ** A decode that fails *)

(** A frame suspended on its decode has only published its clarity
    updates and queued their acknowledgements. *)
Lemma onmessage_suspended_world (msg : LiveServerMessage) (w : World)
    (t : DecodeTask) :
  result (onmessage msg w) = Some (Some t) ->
  world (onmessage msg w) =
    set_microtasks (microtasks w ++ map ack (invocations (EvMessage msg))) w /\
  transcripts (log (onmessage msg w)) = [].
Proof.
  unfold onmessage. rewrite bind_eq, handleToolCall_eq.
  destruct (toolCall msg) as [[[fcs|]]|]; cbn [result world log];
    try discriminate.
  all: unfold onmessage_rest; rewrite bind_eq; cbn [gets result world log];
    match goal with
    | |- context [outputAudioContextRef ?w1] =>
        destruct (audioData msg) as [d|];
        [destruct (outputAudioContextRef w1) as [ctx|];
         [destruct (truthy d)|]|]
    end;
    rewrite bind_eq; cbn [emit ret result world log];
    try (destruct (result (handleTranscription msg _)); cbn [result];
         discriminate);
    intros _; split; [reflexivity|];
    rewrite ?transcripts_app, ?transcripts_publications; reflexivity.
Qed.

Lemma nth_error_last {A} (l : list A) (x : A) :
  nth_error (l ++ [x]) (List.length l) = Some x.
Proof. induction l; cbn; trivial. Qed.

Lemma remove_nth_last {A} (l : list A) (x : A) :
  remove_nth (List.length l) (l ++ [x]) = l.
Proof.
  unfold remove_nth. rewrite firstn_app, firstn_all, Nat.sub_diag.
  cbn [firstn]. rewrite app_nil_r.
  replace (S (List.length l)) with (List.length (l ++ [x]))
    by (rewrite length_app; cbn; apply Nat.add_1_r).
  now rewrite skipn_all, app_nil_r.
Qed.

(** X8: when the decode of a frame's audio rejects, the rest of the
    frame is not handled: the continuation of [onmessage] throws before
    it schedules anything or looks at the transcription, so the
    fragments of the frame are not appended, its turn-boundary marker
    flushes nothing, and the accumulators, the cursor, the sources and
    the decodes under way are as they were before the frame. *)
Theorem failed_decode_drops_frame
    (msg : LiveServerMessage) (t : DecodeTask) (now : Q) (w : World) :
  result (onmessage msg w) = Some (Some t) ->
  let arrived := handle (EvMessage msg) w in
  let r := handle (EvDecoded (List.length (pendingDecodes w)) None now)
                  (world arrived) in
  result r = None /\ log r = [] /\
  transcripts (log arrived) = [] /\
  currentInputTranscription (world r) = currentInputTranscription w /\
  currentOutputTranscription (world r) = currentOutputTranscription w /\
  nextStartTimeRef (world r) = nextStartTimeRef w /\
  sourceNodesRef (world r) = sourceNodesRef w /\
  pendingDecodes (world r) = pendingDecodes w.
Proof.
  intros Hs. cbv zeta.
  destruct (onmessage_suspended_world msg w Hs) as [Hw Ht].
  assert (Ha : handle (EvMessage msg) w =
               {| result := Some tt;
                  world := set_pendingDecodes (pendingDecodes w ++ [t])
                             (world (onmessage msg w));
                  log := log (onmessage msg w) |}).
  { cbn [handle]. rewrite bind_eq, Hs. cbn [modify result world log].
    rewrite app_nil_r, Hw. now destruct w. }
  rewrite Ha. cbn [world log]. rewrite Hw.
  cbn [handle]. rewrite bind_eq. cbn [gets result world log app].
  assert (Hp : pendingDecodes
                 (set_pendingDecodes (pendingDecodes w ++ [t])
                    (set_microtasks
                       (microtasks w ++ map ack (invocations (EvMessage msg)))
                       w)) = pendingDecodes w ++ [t]) by now destruct w.
  rewrite Hp, nth_error_last, bind_eq, remove_nth_last.
  cbn [modify onmessage_resume throw result world log app].
  destruct w; cbn. repeat split; trivial.
Qed.

Lemma failed_decode_witness :
  result (onmessage full_frame connected_world) =
    Some (Some {| task_msg := full_frame; task_ctx := 1%nat |}) /\
  transcripts
    (snd (run [EvMessage full_frame; EvDecoded 0 None 0] connected_world))
    = [] /\
  currentInputTranscription
    (fst (run [EvMessage full_frame; EvDecoded 0 None 0] connected_world))
    = [].
Proof.
  split; [reflexivity|].
  pose proof (@failed_decode_drops_frame full_frame
                {| task_msg := full_frame; task_ctx := 1%nat |} 0
                connected_world eq_refl) as H.
  cbv zeta in H. destruct H as (_ & Hl & Ht & Hi & _).
  split; [|exact Hi].
  match type of Hl with
  | log ?r = _ =>
      match type of Ht with
      | transcripts (log ?a) = _ =>
          assert (G : transcripts (log a ++ log r ++ []) = [])
            by (rewrite Hl; cbn [app]; rewrite app_nil_r; exact Ht)
      end
  end.
  exact G.
Defined.

(** The same frame, when its decode succeeds, flushes its fragment. *)
Example decoded_frame_is_flushed :
  transcripts
    (snd (run [EvMessage full_frame; EvDecoded 0 (Some half_second) 0]
              connected_world)) = [(lit "last", user)].
Proof. reflexivity. Qed.

(** * Properties of the component *)

(** ** Trimming *)

Lemma trimStart_idem (s : jsstring) : trimStart (trimStart s) = trimStart s.
Proof.
  induction s as [|c r IH]; cbn; trivial.
  destruct (is_white_space c) eqn:E; trivial. cbn. now rewrite E.
Qed.

Lemma trimStart_snoc (l : jsstring) (c : code_unit) :
  is_white_space c = false -> trimStart (l ++ [c]) = trimStart l ++ [c].
Proof.
  intros E. induction l as [|a r IH]; cbn.
  - now rewrite E.
  - now destruct (is_white_space a).
Qed.

Lemma trimEnd_idem (s : jsstring) : trimEnd (trimEnd s) = trimEnd s.
Proof. unfold trimEnd. now rewrite rev_involutive, trimStart_idem. Qed.

(** Trimming the end of a string that has no white space in front
    leaves none in front. *)
Lemma trimStart_trimEnd (s : jsstring) :
  trimStart s = s -> trimStart (trimEnd s) = trimEnd s.
Proof.
  destruct s as [|c r]; trivial. cbn [trimStart].
  destruct (is_white_space c) eqn:E.
  - intros H. exfalso.
    assert (Hi : has_ink (trimStart r) = has_ink (c :: r)) by now rewrite H.
    pose proof (f_equal (@List.length _) H) as Hl. cbn in Hl.
    assert (Hle : forall x : jsstring,
              (List.length (trimStart x) <= List.length x)%nat).
    { clear. induction x as [|a x IH]; cbn; trivial.
      destruct (is_white_space a); cbn; lia. }
    specialize (Hle r). lia.
  - intros _. unfold trimEnd.
    change (rev (c :: r)) with (rev r ++ [c]).
    rewrite (@trimStart_snoc (rev r) c E), rev_app_distr.
    change (rev [c]) with [c]. cbn [app trimStart]. now rewrite E.
Qed.

Lemma trim_idem (s : jsstring) : trim (trim s) = trim s.
Proof.
  unfold trim.
  rewrite (@trimStart_trimEnd (trimStart s) (trimStart_idem s)).
  apply trimEnd_idem.
Qed.

Lemma has_ink_trim (s : jsstring) : has_ink (trim s) = has_ink s.
Proof.
  unfold trim, trimEnd.
  now rewrite has_ink_rev, trimStart_has_ink, has_ink_rev, trimStart_has_ink.
Qed.

Lemma has_ink_app (a b : jsstring) :
  has_ink (a ++ b) = has_ink a || has_ink b.
Proof. apply existsb_app. Qed.

Lemma topicToSave_has_ink (currentTopic : jsstring) :
  has_ink (App.topicToSave currentTopic) = true.
Proof.
  unfold App.topicToSave. rewrite truthy_trim.
  destruct (has_ink currentTopic) eqn:E; trivial. now rewrite has_ink_trim.
Qed.

(** X9: the topic a lesson is saved under is never blank and has no
    white space around it: it is the trimmed text of the topic field
    when that has a character other than white space, and
    "Untitled Session" otherwise. *)
Theorem saved_topic_never_blank (currentTopic : jsstring) :
  has_ink (App.topicToSave currentTopic) = true /\
  trim (App.topicToSave currentTopic) = App.topicToSave currentTopic /\
  App.topicToSave currentTopic =
    (if has_ink currentTopic then trim currentTopic
     else lit "Untitled Session").
Proof.
  unfold App.topicToSave. rewrite truthy_trim.
  destruct (has_ink currentTopic) eqn:E; repeat split; trivial.
  - now rewrite has_ink_trim.
  - apply trim_idem.
Qed.

Example saved_topic_examples :
  App.topicToSave (lit "  entropy ") = lit "entropy" /\
  App.topicToSave (lit "   ") = lit "Untitled Session" /\
  App.topicToSave [] = lit "Untitled Session".
Proof. repeat split. Qed.

(** ** The summary of a lesson *)

Lemma has_ink_role_string (r : Direction) :
  has_ink (App.role_string r) = true.
Proof. now destruct r. Qed.

Lemma has_ink_join (sep : jsstring) (x : jsstring) (r : list jsstring) :
  has_ink x = true -> has_ink (App.join sep (x :: r)) = true.
Proof.
  intros H. cbn [App.join]. destruct r; trivial.
  now rewrite has_ink_app, H.
Qed.

Lemma has_ink_transcriptText (ms : list App.ChatMessage) :
  has_ink (App.transcriptText ms) =
  match ms with [] => false | _ :: _ => true end.
Proof.
  unfold App.transcriptText. destruct ms as [|m r]; trivial.
  cbn [map]. apply has_ink_join.
  now rewrite has_ink_app, has_ink_role_string.
Qed.

(** X10: a summary is asked of the service exactly when the chat has
    at least one message and there is an API key; with an empty chat,
    or with no key, the lesson is saved with "No summary available."
    whatever the service would have said. *)
Theorem summary_asked_when (ms : list App.ChatMessage) (API_KEY : jsstring) :
  App.wants_summary (App.transcriptText ms) API_KEY =
    match ms with [] => false | _ :: _ => truthy API_KEY end /\
  (forall outcome,
     App.summaryText (App.transcriptText []) API_KEY outcome =
       lit "No summary available.") /\
  (forall outcome,
     App.summaryText (App.transcriptText ms) [] outcome =
       lit "No summary available.").
Proof.
  assert (H : forall l k, App.wants_summary (App.transcriptText l) k =
                match l with [] => false | _ :: _ => truthy k end).
  { intros l k. unfold App.wants_summary.
    rewrite truthy_trim, has_ink_transcriptText. now destruct l. }
  unfold App.summaryText. rewrite !H. repeat split.
  now destruct ms.
Qed.

Lemma summaryText_truthy
    (transcriptText API_KEY : jsstring) (outcome : option (option jsstring)) :
  truthy (App.summaryText transcriptText API_KEY outcome) = true.
Proof.
  unfold App.summaryText.
  destruct (App.wants_summary transcriptText API_KEY); trivial.
  destruct outcome as [[t|]|]; trivial. now destruct (truthy t) eqn:E.
Qed.


(** ** The gauge *)

(** X12: the bar of the gauge and the figure above it are always in
    the same band: green from 80, yellow from 50 to 79, red below. *)
Theorem gauge_bands_agree (score : Z) :
  (80 <= score /\ App.getColor score = lit "bg-emerald-500" /\
   App.figureColor score = lit "text-emerald-400")%Z \/
  (50 <= score < 80 /\ App.getColor score = lit "bg-yellow-500" /\
   App.figureColor score = lit "text-yellow-400")%Z \/
  (score < 50 /\ App.getColor score = lit "bg-red-500" /\
   App.figureColor score = lit "text-red-400")%Z.
Proof.
  unfold App.getColor, App.figureColor.
  destruct (Z.leb_spec 80 score); [left; auto|].
  destruct (Z.leb_spec 50 score); [right; left; auto|].
  right; right; auto.
Qed.

(** ** The history of lessons *)

Lemma strict_eq_true (a b : jsstring) : strict_eq a b = true <-> a = b.
Proof.
  unfold strict_eq. destruct (jsstring_dec a b); split; congruence.
Qed.

Lemma filter_unchanged {A} (p : A -> bool) (l : list A) :
  (forall x, In x l -> p x = true) -> filter p l = l.
Proof.
  induction l as [|x r IH]; cbn; trivial. intros H.
  rewrite (H x (or_introl eq_refl)), IH; trivial.
  intros y Hy. apply H. now right.
Qed.

Lemma filter_comm {A} (p q : A -> bool) (l : list A) :
  filter p (filter q l) = filter q (filter p l).
Proof.
  induction l as [|x r IH]; cbn; trivial.
  destruct (p x) eqn:P, (q x) eqn:Q; cbn; rewrite ?P, ?Q, IH; trivial.
Qed.

(** X13: deleting a lesson removes from the history every lesson with
    that id and no other, leaves the history as it is when no lesson
    has the id, and writes the new history to the storage, so that a
    reload shows it; deleting twice is deleting once, and deletions
    commute. *)
Theorem deleteLesson_removes_the_id (id0 : jsstring) (a : App.State) :
  let a' := App.deleteLesson id0 a in
  (forall l, In l (App.pastLessons a') <->
             In l (App.pastLessons a) /\ App.id l <> id0) /\
  (~ In id0 (map App.id (App.pastLessons a)) ->
   App.pastLessons a' = App.pastLessons a) /\
  App.feynman_lessons a' = Some (App.pastLessons a') /\
  App.loadHistory a' = a' /\
  App.deleteLesson id0 a' = a' /\
  (forall id1,
     App.deleteLesson id0 (App.deleteLesson id1 a) =
     App.deleteLesson id1 (App.deleteLesson id0 a)) /\
  App.messages a' = App.messages a /\ App.clarity a' = App.clarity a /\
  App.currentTopic a' = App.currentTopic a.
Proof.
  cbv zeta. unfold App.deleteLesson, App.loadHistory.
  cbn [App.pastLessons App.feynman_lessons App.messages App.clarity
       App.currentTopic].
  assert (Hneq : forall l : App.Lesson,
            negb (strict_eq (App.id l) id0) = true <-> App.id l <> id0).
  { intros l. rewrite negb_true_iff. split.
    - intros H E. apply (proj2 (strict_eq_true _ _)) in E. congruence.
    - intros H. destruct (strict_eq (App.id l) id0) eqn:E; trivial.
      apply strict_eq_true in E. contradiction. }
  split; [|split; [|split; [|split; [|split; [|split]]]]].
  - intros l. rewrite filter_In, Hneq. reflexivity.
  - intros H. apply filter_unchanged. intros l Hl. apply Hneq.
    intros E. elim H. rewrite <- E. now apply in_map.
  - reflexivity.
  - reflexivity.
  - now rewrite filter_idem.
  - intros id1. now rewrite filter_comm.
  - repeat split.
Qed.

Lemma deleteLesson_witness :
  ~ In (lit "none") (map App.id (App.pastLessons busy_app)) /\
  App.pastLessons (App.deleteLesson (lit "none") busy_app) =
    App.pastLessons busy_app /\
  App.pastLessons (App.deleteLesson (App.id lesson_a) busy_app) = [lesson_b].
Proof.
  assert (H : ~ In (lit "none") (map App.id (App.pastLessons busy_app))).
  { cbn. intros [H|[H|H]]; try discriminate H; exact H. }
  split; [exact H|]. split; [|reflexivity].
  apply (proj1 (proj2 (@deleteLesson_removes_the_id (lit "none") busy_app))).
  exact H.
Defined.

(** X14: finishing a lesson tears the session down at once and, when
    the summary is there, saves one new lesson in front of the history
    as it was when the lesson was finished: with the score shown then,
    a topic that is never blank and a summary that is never empty.
    The storage gets the same list, so that a reload shows it.  The
    history of that moment is what is saved: a lesson deleted while
    the summary was on its way is back in the list and in the
    storage. *)
Theorem finishLesson_saves_in_front
    (WELCOME_MESSAGE API_KEY : jsstring) (outcome : option (option jsstring))
    (now locale : jsstring) (a later : App.State) (w : World) :
  exists c,
    App.finishLesson a w =
      {| result := Some c; world := torn_down w; log := teardown_log w |} /\
    let a' := App.finishLesson_save WELCOME_MESSAGE API_KEY c outcome
                now locale later in
    (exists lesson,
       App.pastLessons a' = lesson :: App.pastLessons a /\
       App.id lesson = now /\ App.timestamp lesson = locale /\
       App.averageScore lesson = score (App.clarity a) /\
       has_ink (App.topic lesson) = true /\
       truthy (App.summary lesson) = true) /\
    App.feynman_lessons a' = Some (App.pastLessons a') /\
    App.pastLessons (App.loadHistory a') = App.pastLessons a' /\
    App.messages a' = [{| App.role := model; App.text := WELCOME_MESSAGE |}] /\
    App.currentTopic a' = [] /\
    score (App.clarity a') = 0%Z.
Proof.
  eexists. split.
  - unfold App.finishLesson. rewrite bind_eq, disconnect_eq.
    cbn [result world log ret]. rewrite app_nil_r. reflexivity.
  - cbv zeta. unfold App.finishLesson_save, App.loadHistory.
    cbn [App.pastLessons App.feynman_lessons App.messages App.clarity
         App.currentTopic App.finalScore App.cap_pastLessons
         App.cap_topicToSave App.cap_transcriptText score].
    repeat split; trivial.
    eexists. split; [reflexivity|].
    cbn [App.id App.timestamp App.averageScore App.topic App.summary].
    repeat split; trivial.
    + apply topicToSave_has_ink.
    + apply summaryText_truthy.
Qed.

(** A lesson deleted while the summary is on its way comes back. *)
Example deleted_lesson_comes_back :
  let c := {| App.finalScore := 42;
              App.cap_transcriptText := App.transcriptText
                                          (App.messages busy_app);
              App.cap_topicToSave := lit "heat";
              App.cap_pastLessons := App.pastLessons busy_app |} in
  result (App.finishLesson busy_app connected_world) = Some c /\
  App.pastLessons (App.deleteLesson (App.id lesson_a) busy_app) = [lesson_b] /\
  map App.id
    (App.pastLessons
       (App.finishLesson_save (lit "Welcome") (lit "key") c
          (Some (Some (lit "About heat.")))
          (lit "1700000000003") (lit "1/3/2025")
          (App.deleteLesson (App.id lesson_a) busy_app)))
  = [lit "1700000000003"; App.id lesson_a; App.id lesson_b].
Proof. cbv zeta. repeat split. Qed.

(** ** The button that starts and stops a lesson *)

Lemma teardown_closes_contexts (w : World) (ci co : AudioContext) :
  inputAudioContextRef w = Some ci -> outputAudioContextRef w = Some co ->
  In (context_close ci) (teardown_log w) /\
  In (context_close co) (teardown_log w).
Proof.
  intros Hi Ho. unfold teardown_log. rewrite Hi, Ho. split.
  - do 2 (apply in_or_app; right). apply in_or_app. left. now left.
  - do 3 (apply in_or_app; right). apply in_or_app. left.
    apply in_or_app. right. now left.
Qed.

Lemma toggleSession_stop (API_KEY : jsstring) (a : App.State) (w : World) :
  connectionState w = CONNECTED \/ connectionState w = CONNECTING ->
  exists c,
    App.toggleSession API_KEY a w =
    {| result := Some (a, Some c); world := torn_down w;
       log := teardown_log w |}.
Proof.
  intros H. eexists. unfold App.toggleSession. rewrite bind_eq.
  cbn [gets result world log app].
  assert (E : forall cs, cs = CONNECTED \/ cs = CONNECTING ->
            match cs with
            | CONNECTED | CONNECTING =>
                c <- App.finishLesson a ;; ret (a, Some c)
            | _ => connect API_KEY ;; ret (App.start_lesson a, None)
            end = (c <- App.finishLesson a ;; ret (a, Some c))).
  { intros cs [-> | ->]; reflexivity. }
  rewrite (E _ H). rewrite bind_eq. unfold App.finishLesson.
  rewrite bind_eq, disconnect_eq. cbn [result world log ret].
  rewrite !app_nil_r. reflexivity.
Qed.

(** X15: the button starts a session only when the hook shows
    [DISCONNECTED] or [ERROR]: it then empties the chat, resets the
    score and calls [connect].  While the hook shows [CONNECTING] or
    [CONNECTED] the button finishes the lesson instead: [connect] is
    not called, no context is created, and the hook is torn down.  So
    pressing it twice in a row from rest closes the two contexts the
    first press created and leaves the hook [DISCONNECTED] with its
    handles dropped. *)
Theorem button_never_starts_twice
    (API_KEY : jsstring) (a : App.State) (w : World) :
  (connectionState w = CONNECTED \/ connectionState w = CONNECTING ->
   exists c,
     App.toggleSession API_KEY a w =
     {| result := Some (a, Some c); world := torn_down w;
        log := teardown_log w |}) /\
  (connectionState w = DISCONNECTED \/ connectionState w = ERROR ->
   exists a',
     result (App.toggleSession API_KEY a w) = Some (a', None) /\
     world (App.toggleSession API_KEY a w) = world (connect API_KEY w) /\
     log (App.toggleSession API_KEY a w) = log (connect API_KEY w) /\
     App.messages a' = [] /\ score (App.clarity a') = 0%Z /\
     App.pastLessons a' = App.pastLessons a /\
     App.currentTopic a' = App.currentTopic a /\
     (truthy API_KEY = true ->
      let second :=
        App.toggleSession API_KEY a' (world (App.toggleSession API_KEY a w)) in
      In (context_close (fresh w)) (log second) /\
      In (context_close (S (fresh w))) (log second) /\
      released (world second) /\
      connectionState (world second) = DISCONNECTED)).
Proof.
  split; [apply toggleSession_stop|].
  intros H. exists (App.start_lesson a).
  assert (E : App.toggleSession API_KEY a w =
              (connect API_KEY ;; ret (App.start_lesson a, None)) w).
  { unfold App.toggleSession. rewrite bind_eq.
    cbn [gets result world log app].
    destruct H as [-> | ->];
      now destruct ((connect API_KEY ;; ret (App.start_lesson a, None)) w). }
  rewrite E, bind_eq.
  assert (Hres : exists b, result (connect API_KEY w) = Some b).
  { unfold connect. destruct (negb (truthy API_KEY)).
    - rewrite bind_eq. cbn. eauto.
    - destruct w. unfold bind, setState, emit, modify, gets, new_object, ret.
      cbn. eauto. }
  destruct Hres as [b Hb]. rewrite Hb. cbn [result world log ret].
  rewrite app_nil_r.
  do 7 (split; [reflexivity|]).
  intros Hk. cbv zeta.
  assert (Hw : inputAudioContextRef (world (connect API_KEY w)) =
                 Some (fresh w) /\
               outputAudioContextRef (world (connect API_KEY w)) =
                 Some (S (fresh w)) /\
               connectionState (world (connect API_KEY w)) = CONNECTING).
  { rewrite (@connect_eq API_KEY w Hk). now destruct w. }
  destruct Hw as (Hi & Ho & Hcs).
  destruct (@toggleSession_stop API_KEY (App.start_lesson a)
              (world (connect API_KEY w)) (or_intror Hcs)) as [c Hc].
  rewrite Hc. cbn [world log].
  destruct (teardown_closes_contexts _ Hi Ho) as [H1 H2].
  repeat split; trivial; apply torn_down_released.
Qed.

Lemma button_never_starts_twice_witness :
  (connectionState connected_world = CONNECTED \/
   connectionState connected_world = CONNECTING) /\
  connectionState
    (world (App.toggleSession (lit "key") busy_app connected_world))
    = DISCONNECTED.
Proof.
  split; [now left|].
  destruct (proj1 (@button_never_starts_twice (lit "key") busy_app
                     connected_world) (or_introl eq_refl)) as [c Hc].
  rewrite Hc. reflexivity.
Defined.

(** * Further properties of the hook, continued *)

(** ** A session that opens *)

(** X16: when [connect] has a key, [getUserMedia] gives a stream and
    the channel opens, with nothing in between, the hook is
    [CONNECTED] with the stream and the channel held, two new contexts,
    the cursor at 0 and the audio tap wired; video is requested, and
    a new frame timer armed, exactly when the session is not audio-only
    (and, for the timer, the canvas and the video element are there). *)
Theorem connect_wires_capture
    (apiKey : jsstring) (stream : MediaStream) (w : World) :
  truthy apiKey = true ->
  let r := run [EvConnect apiKey; EvUserMedia (Some stream); EvOpen] w in
  connectionState (fst r) = CONNECTED /\
  mediaStreamRef (fst r) = Some stream /\
  sessionRef (fst r) = Some (S (S (fresh w))) /\
  inputAudioContextRef (fst r) = Some (fresh w) /\
  outputAudioContextRef (fst r) = Some (S (fresh w)) /\
  nextStartTimeRef (fst r) = 0 /\
  tap_live (fst r) = true /\
  (forall pcmBlob,
     microtasks (world (handle (EvAudioProcess pcmBlob) (fst r))) =
     microtasks w ++ [sendRealtimeInput_media pcmBlob]) /\
  In (getUserMedia (negb (isAudioOnly w))) (snd r) /\
  (videoIntervalRef (fst r) =
   if negb (isAudioOnly w) && canvasRef w && videoRef w
   then Some (Pos.of_succ_nat (S (S (S (S (fresh w))))))
   else videoIntervalRef w) /\
  (filter is_sampling (snd r) =
   if negb (isAudioOnly w) && canvasRef w && videoRef w
   then [setInterval (Pos.of_succ_nat (S (S (S (S (fresh w))))))] else []).
Proof.
  intros Hk. cbv zeta. rewrite !run_cons. cbn [run handle fst snd].
  rewrite !bind_eq, (@connect_eq apiKey w Hk). cbn [result world log ret].
  destruct w. unfold connect_resume, onopen, setState, when, onaudioprocess,
    tap_live.
  unfold bind, gets, modify, emit, new_object, ret.
  cbn -[Pos.of_succ_nat].
  destruct isAudioOnly0, canvasRef0, videoRef0; cbn -[Pos.of_succ_nat];
    repeat split; auto 10.
Qed.

Lemma connect_wires_capture_witness :
  truthy (lit "key") = true /\
  connectionState connected_world = CONNECTED /\
  tap_live connected_world = true /\
  videoIntervalRef connected_world = Some 5%positive.
Proof.
  split; [reflexivity|].
  pose proof (@connect_wires_capture (lit "key") [microphone; camera]
                (init_world calm) eq_refl) as H.
  cbv zeta in H. destruct H as (Hc & _ & _ & _ & _ & _ & Ht & _).
  split; [exact Hc|]. split; [exact Ht | reflexivity].
Defined.

(** ** Playback after a teardown *)

Lemma playback_idle_refl (w : World) : playback_idle w w [].
Proof. unfold playback_idle. auto. Qed.

Lemma playback_idle_trans (w1 w2 w3 : World) (l1 l2 : list Effect) :
  playback_idle w1 w2 l1 -> playback_idle w2 w3 l2 ->
  playback_idle w1 w3 (l1 ++ l2).
Proof.
  unfold playback_idle. intros (O1 & P1 & F1 & N1) (O2 & P2 & F2 & N2).
  repeat split; try congruence.
  - destruct O2 as [O2|O2]; [rewrite O2; exact O1 | now right].
  - now rewrite filter_app, F1, F2.
Qed.

Lemma playback_off_refl (w : World) : playback_off w w [].
Proof. unfold playback_off. auto. Qed.

Lemma playback_off_trans (w1 w2 w3 : World) (l1 l2 : list Effect) :
  playback_off w1 w2 l1 -> playback_off w2 w3 l2 ->
  playback_off w1 w3 (l1 ++ l2).
Proof.
  unfold playback_off. intros H1 H2 Ho Hp.
  destruct (H1 Ho Hp) as (O1 & P1 & F1 & N1).
  destruct (H2 O1 P1) as (O2 & P2 & F2 & N2).
  repeat split; trivial; try congruence.
  now rewrite filter_app, F1, F2.
Qed.

Lemma playback_idle_off (w w' : World) (l : list Effect) :
  playback_idle w w' l -> playback_off w w' l.
Proof.
  intros (O & P & F & N) Ho Hp. repeat split; trivial; try congruence.
  destruct O; congruence.
Qed.

Lemma playback_session_send (l : list Outbound) :
  filter is_playback (map session_send l) = [].
Proof. induction l; cbn; trivial. Qed.

Lemma run_microtasks_playback_idle : respects playback_idle run_microtasks.
Proof.
  intro w. destruct w. unfold playback_idle, run_microtasks.
  cbn [world log]. rewrite playback_session_send. cbn. auto.
Qed.

Ltac playback_idle_tac :=
  respects_with playback_idle_refl playback_idle_trans
    ltac:(apply run_microtasks_playback_idle)
    ltac:(frame_leaf ltac:(unfold playback_idle)).

Lemma handle_playback_idle (e : Event) :
  match e with
  | EvMessage _ | EvDecoded _ _ _ | EvConnect _ => False
  | _ => True
  end ->
  respects playback_idle (handle e).
Proof.
  destruct e; intros He; try elim He; cbn [handle]; playback_idle_tac.
Qed.

Lemma handleToolCall_playback_idle msg :
  respects playback_idle (handleToolCall msg).
Proof. playback_idle_tac. Qed.

Lemma handleTranscription_playback_idle msg :
  respects playback_idle (handleTranscription msg).
Proof. playback_idle_tac. Qed.

Lemma handle_playback_off (e : Event) :
  starts_session e = false -> respects playback_off (handle e).
Proof.
  intros He w.
  destruct e;
    try (apply playback_idle_off, handle_playback_idle; exact I).
  - (* connect without a key *)
    cbn [starts_session] in He. cbn [handle]. rewrite bind_eq.
    rewrite (@connect_falsy apiKey w He).
    cbn [result world log ret]. apply playback_off_refl.
  - (* a frame: no output context, so no decode *)
    intros Ho Hp. cbn [handle]. unfold onmessage. rewrite !bind_eq.
    destruct (handleToolCall_playback_idle msg w) as (O1 & P1 & F1 & N1).
    assert (Ho1 : outputAudioContextRef (world (handleToolCall msg w)) = None)
      by (destruct O1; congruence).
    destruct (result (handleToolCall msg w)); cbn [result world log];
      [|repeat split; trivial; congruence].
    unfold onmessage_rest. rewrite bind_eq. cbn [gets result world log app].
    rewrite Ho1.
    assert (E : match audioData msg, @None AudioContext with
                | Some d, Some ctx =>
                    if truthy d then
                      emit (decodeAudioData d ctx) ;;
                      ret (Some {| task_msg := msg; task_ctx := ctx |})
                    else handleTranscription msg ;; ret None
                | _, _ => handleTranscription msg ;; ret None
                end = (handleTranscription msg ;; ret None))
      by now destruct (audioData msg).
    rewrite E, bind_eq.
    destruct (handleTranscription_playback_idle msg
                (world (handleToolCall msg w))) as (O2 & P2 & F2 & N2).
    destruct (result (handleTranscription msg _));
      cbn [ret modify result world log];
      rewrite ?app_nil_r, ?filter_app, F1, F2;
      repeat split; trivial; try congruence;
      destruct O2; congruence.
  - (* a decode ends: none was under way *)
    intros Ho Hp. cbn [handle]. rewrite bind_eq.
    cbn [gets result world log app]. rewrite Hp.
    destruct i; cbn [nth_error ret world log]; repeat split; trivial.
Qed.

(** X17: after [disconnect], when no decode was under way, nothing is
    decoded or scheduled until the next [connect] with a key: a frame
    that brings audio finds no output context, starts no decode and is
    handled to its end at once, and the cursor stays where it was. *)
Theorem playback_off_after_teardown (es : list Event) (w : World) :
  forallb (fun e => negb (starts_session e)) es = true ->
  pendingDecodes w = [] ->
  let r := run es (world (disconnect w)) in
  filter is_playback (snd r) = [] /\
  pendingDecodes (fst r) = [] /\
  outputAudioContextRef (fst r) = None /\
  nextStartTimeRef (fst r) = nextStartTimeRef w.
Proof.
  intros Hes Hp. cbv zeta.
  pose proof (respects_run playback_off_refl playback_off_trans
                (fun e => negb (starts_session e))
                (fun e He => handle_playback_off e
                   (proj1 (negb_true_iff _) He))
                es (world (disconnect w)) Hes) as H.
  rewrite disconnect_eq in *. cbn [world] in *.
  destruct (torn_down_released w) as (_ & _ & _ & _ & Ho & _).
  assert (Hp' : pendingDecodes (torn_down w) = [])
    by (rewrite <- Hp; now destruct w).
  destruct (H Ho Hp') as (O & P & F & N).
  repeat split; trivial. rewrite N. now destruct w.
Qed.

Lemma playback_off_witness :
  (forallb (fun e => negb (starts_session e))
     [EvMessage full_frame; EvDecoded 0 (Some half_second) 0] = true /\
   pendingDecodes connected_world = []) /\
  filter is_playback
    (snd (run [EvMessage full_frame; EvDecoded 0 (Some half_second) 0]
              (world (disconnect connected_world)))) = [] /\
  transcripts
    (snd (run [EvMessage full_frame; EvDecoded 0 (Some half_second) 0]
              (world (disconnect connected_world)))) = [(lit "last", user)].
Proof.
  split; [split; reflexivity|].
  split; [|reflexivity].
  apply (@playback_off_after_teardown
           [EvMessage full_frame; EvDecoded 0 (Some half_second) 0]
           connected_world eq_refl eq_refl).
Defined.
